(** * Shape: edge-set polygons of the ring finder

    A shallow embedding of [shape.py]: the signed area of a node cycle
    ([calculate_polygon_area]), the conversion between node cycles and
    edge sets ([node_list_to_edges], [Shape.to_node_list]), and the
    edge-set operations of [Shape] (merge, equality, hash, membership,
    length).

    Nodes are integers.  An edge is what the caller put in the edge
    collection: a tuple [(u, v)] or a frozenset of nodes.  Coordinates are
    pairs of numbers; the arithmetic of the area is written once over a
    [Number] interface and run at two instances: IEEE binary64 floats (what
    the Python code computes with) and exact rationals. *)

From Stdlib Require Import ZArith QArith Qcanon.
From Stdlib Require Import Floats.PrimFloat.
From stdpp Require Import gmap list sets.

(** ** Exceptions *)

Inductive exn := KeyError | TypeError | ValueError | IndexError.

Inductive result (A : Type) :=
  | Ok (a : A)
  | Raise (e : exn).
Arguments Ok {A} a.
Arguments Raise {A} e.

#[global] Instance result_ret : MRet result := λ A a, Ok a.

#[global] Instance result_bind : MBind result := λ A B k r,
  match r with
  | Ok a => k a
  | Raise e => Raise e
  end.

#[global] Instance exn_eq_dec : EqDecision exn.
Proof. solve_decision. Defined.

(** ** Numbers *)

(** The operations [shape.py] applies to coordinate components. *)
Class Number (T : Type) := {
  num_zero : T;               (* the literal 0.0 *)
  num_half : T;               (* the literal 0.5 *)
  num_add : T → T → T;
  num_sub : T → T → T;
  num_mul : T → T → T;
  num_ltb : T → T → bool;     (* a < b *)
  num_eqb : T → T → bool;     (* a == b *)
}.

(** Python floats and numpy float64: IEEE 754 binary64, round to nearest. *)
#[global] Instance float64 : Number float := {|
  num_zero := 0%float;
  num_half := 0.5%float;
  num_add := PrimFloat.add;
  num_sub := PrimFloat.sub;
  num_mul := PrimFloat.mul;
  num_ltb := PrimFloat.ltb;
  num_eqb := PrimFloat.eqb;
|}.

(** Exact rational arithmetic: no rounding. *)
#[global] Instance exact : Number Qc := {|
  num_zero := Q2Qc 0;
  num_half := Q2Qc (1 # 2);
  num_add := Qcplus;
  num_sub := Qcminus;
  num_mul := Qcmult;
  num_ltb := λ a b, if Qclt_le_dec a b then true else false;
  num_eqb := λ a b, if Qc_eq_dec a b then true else false;
|}.

(** ** Nodes, edges, coordinates *)

Abbreviation Node := Z (only parsing).

Inductive Edge :=
  | Tuple (u v : Node)          (* the tuple (u, v) *)
  | Frozen (s : gset Node).     (* frozenset([u, v]) *)

#[global] Instance Edge_eq_dec : EqDecision Edge.
Proof. solve_decision. Defined.

#[global] Instance Edge_countable : Countable Edge.
Proof.
  refine (inj_countable'
    (λ e, match e with Tuple u v => inl (u, v) | Frozen s => inr s end)
    (λ x, match x with inl (u, v) => Tuple u v | inr s => Frozen s end) _).
  by intros [].
Defined.

(** [for node in edge] and [node in edge]: the nodes of an edge. *)
Definition edge_nodes (e : Edge) : gset Node :=
  match e with
  | Tuple u v => {[u; v]}
  | Frozen s => s
  end.

(** [a.symmetric_difference(b)] *)
Definition symmetric_difference `{Countable K} (a b : gset K) : gset K :=
  (a ∖ b) ∪ (b ∖ a).

(** [min(s)] of a set: ValueError on the empty set. *)
Definition py_min (s : gset Node) : result Node :=
  match elements s with
  | [] => Raise ValueError
  | x :: xs => Ok (foldl Z.min x xs)
  end.

(** [l[i]] for a non-negative index. *)
Definition list_get {A} (l : list A) (i : nat) : result A :=
  match l !! i with
  | Some x => Ok x
  | None => Raise IndexError
  end.

(** [d[k]] *)
Definition dict_get {V} (d : gmap Node V) (k : Node) : result V :=
  match d !! k with
  | Some v => Ok v
  | None => Raise KeyError
  end.

(** [enumerate(l)] *)
Definition enumerate {A} (l : list A) : list (nat * A) :=
  imap (λ i x, (i, x)) l.

(** [node_list_to_edges(node_list, is_ring)] *)
Definition node_list_to_edges (node_list : list Node) (is_ring : bool)
  : gset Edge :=
  let list_size := length node_list in
  let offset := if is_ring then 0%Z else (-1)%Z in
  foldl
    (λ edges i,
       let next_index := (i + 1) mod list_size in
       match node_list !! i, node_list !! next_index with
       | Some a, Some b => edges ∪ {[ Frozen {[a; b]} ]}
       | _, _ => edges
       end)
    ∅ (seq 0 (Z.to_nat (Z.of_nat list_size + offset))).

(** The rotation the canonical ordering applies after reversing:
    [node_list[-1:] + node_list[:-1]]. *)
Definition last_to_front {A} (l : list A) : list A :=
  drop (length l - 1) l ++ take (length l - 1) l.

(** A coordinate: the two components of a numpy array. *)
Abbreviation Coord T := (T * T)%type (only parsing).

Section shape.
Context {T : Type} `{!Number T}.

(** [np.all(a == b)] on two coordinates. *)
Definition coord_equal (a b : Coord T) : bool :=
  num_eqb a.1 b.1 && num_eqb a.2 b.2.

(** The shoelace loop of [calculate_polygon_area], one iteration per
    item of [enumerate(node_list)]. *)
Fixpoint area_loop (node_list : list Node) (coords_dict : gmap Node (Coord T))
    (items : list (nat * Node)) (signed_area : T) : result T :=
  match items with
  | [] => Ok signed_area
  | (i, node) :: rest =>
      this_coord ← dict_get coords_dict node;
      next_node ← list_get node_list ((i + 1) mod length node_list);
      next_coord ← dict_get coords_dict next_node;
      area_loop node_list coords_dict rest
        (num_add signed_area
           (num_sub (num_mul this_coord.1 next_coord.2)
                    (num_mul this_coord.2 next_coord.1)))
  end.

Definition calculate_polygon_area (node_list : list Node)
    (coords_dict : gmap Node (Coord T)) : result T :=
  signed_area ← area_loop node_list coords_dict (enumerate node_list) num_zero;
  Ok (num_mul num_half signed_area).

(** The class [Shape]: a frozen edge set and an optional coordinate map. *)
Record Shape := mkShape {
  edges : gset Edge;
  coords_dict : option (gmap Node (Coord T));
}.

(** [Shape(edges, coords_dict)] on a sequence of edges. *)
Definition Shape_init (edge_seq : list Edge)
    (coords : option (gmap Node (Coord T))) : Shape :=
  mkShape (list_to_set edge_seq) coords.

(** The property [nodes]. *)
Definition nodes (self : Shape) : gset Node :=
  ⋃ (edge_nodes <$> elements (edges self)).

(** [shape.coords_dict[node]]: TypeError when the shape is abstract. *)
Definition coord_of (shape : Shape) (node : Node) : result (Coord T) :=
  match coords_dict shape with
  | None => Raise TypeError
  | Some d => dict_get d node
  end.

(** The consistency loop of [merge] over the common nodes, in the order
    in which the set is iterated.  Both subscripts are evaluated before
    the comparison, [self]'s first. *)
Fixpoint check_common (self other : Shape) (common : list Node)
  : result unit :=
  match common with
  | [] => Ok tt
  | node :: rest =>
      a ← coord_of self node;
      b ← coord_of other node;
      if coord_equal a b then check_common self other rest
      else Raise ValueError
  end.

(** [Shape.merge].  Python does not specify the order in which a set is
    iterated; the loop here visits the common nodes in the order of
    [elements].  The order only decides which exception is raised when
    more than one common node makes the loop fail; whether [merge]
    returns, and what it returns, does not depend on it. *)
Definition merge (self other : Shape) : result Shape :=
  let unique_edges := symmetric_difference (edges self) (edges other) in
  let common_nodes := nodes self ∩ nodes other in
  check_common self other (elements common_nodes);;
  Ok (mkShape unique_edges (coords_dict self)).

(** The inner loop of [to_node_list]: the union of the edges that
    contain [last_node]. *)
Definition connected_to (E : gset Edge) (last_node : Node) : gset Node :=
  foldl
    (λ connected_nodes edge,
       if bool_decide (last_node ∈ edge_nodes edge)
       then connected_nodes ∪ edge_nodes edge
       else connected_nodes)
    ∅ (elements E).

(** The [while len(node_list) < len(self.edges)] loop.  Every iteration
    appends one node, so [len(self.edges)] iterations are never all
    used: see [to_node_list_loop_unfold] and [to_node_list_loop_fuel]. *)
Fixpoint to_node_list_loop (E : gset Edge) (fuel : nat)
    (node_list : list Node) (seen_nodes : gset Node)
  : result (list Node) :=
  match fuel with
  | 0 => Ok node_list
  | S fuel' =>
      if bool_decide (length node_list < size E) then
        last_node ← list_get node_list (length node_list - 1);
        let connected_nodes := connected_to E last_node ∖ seen_nodes in
        next_node ← py_min connected_nodes;
        let node_list := node_list ++ [next_node] in
        to_node_list_loop E fuel' node_list (list_to_set node_list)
      else Ok node_list
  end.

(** The walk of [to_node_list], before the winding is fixed. *)
Definition walk (self : Shape) : result (list Node) :=
  first ← py_min (nodes self);
  to_node_list_loop (edges self) (size (edges self)) [first] {[first]}.

(** [Shape.to_node_list]: the walk, then the winding: with coordinates
    and a negative signed area the list is reversed and its last node,
    the minimum, is put back in front. *)
Definition to_node_list (self : Shape) : result (list Node) :=
  node_list ← walk self;
  match coords_dict self with
  | Some coords =>
      signed_area ← calculate_polygon_area node_list coords;
      if num_ltb signed_area num_zero
      then Ok (last_to_front (reverse node_list))
      else Ok node_list
  | None => Ok node_list
  end.

(** [obj in shape], [shape == other], [len(shape)], [hash(shape)].  The
    builtin hash of a frozenset is a parameter. *)
Definition Shape_contains (self : Shape) (obj : Edge) : bool :=
  bool_decide (obj ∈ edges self).

Definition Shape_eq (self other : Shape) : bool :=
  bool_decide (edges self = edges other).

Definition Shape_len (self : Shape) : nat := size (edges self).

Definition Shape_hash (hash : gset Edge → Z) (self : Shape) : Z :=
  hash (edges self).
End shape.

Arguments Shape T : clear implicits.

(** ** Vocabulary of the properties *)

(** The cyclic rotation of a list by [k] positions, for any integer [k]. *)
Definition cyclic_rotation {A} (k : Z) (l : list A) : list A :=
  rotate (Z.to_nat (k `mod` Z.of_nat (length l))) l.

(** Two shapes agree at a node: both give it coordinates, and the
    comparison of [merge] finds them equal. *)
Definition agree_at {T} `{!Number T} (A B : Shape T) (n : Node) : Prop :=
  ∃ a b, coord_of A n = Ok a ∧ coord_of B n = Ok b ∧ coord_equal a b = true.

(** One term of the shoelace sum, in exact arithmetic. *)
Definition shoelace_term (coords : gmap Node (Coord Qc)) (a b : Node) : Qc :=
  let p := default (Q2Qc 0, Q2Qc 0) (coords !! a) in
  let q := default (Q2Qc 0, Q2Qc 0) (coords !! b) in
  (p.1 * q.2 - p.2 * q.1)%Qc.

(** The sum of [g] over the consecutive pairs of a path, and over the
    consecutive pairs of a cycle (the last node is followed by the first). *)
Fixpoint path_sum (g : Node → Node → Qc) (path : list Node) : Qc :=
  match path with
  | a :: (b :: _) as tl => (g a b + path_sum g tl)%Qc
  | _ => Q2Qc 0
  end.

Definition cycle_sum (g : Node → Node → Qc) (cycle : list Node) : Qc :=
  match cycle with
  | [] => Q2Qc 0
  | x :: _ => path_sum g (cycle ++ [x])
  end.

(** The edges between the consecutive nodes of a path, and of a cycle. *)
Fixpoint path_edges (path : list Node) : gset Edge :=
  match path with
  | a :: (b :: _) as tl => {[ Frozen {[a; b]} ]} ∪ path_edges tl
  | _ => ∅
  end.

Definition cycle_edges (cycle : list Node) : gset Edge :=
  match cycle with
  | [] => ∅
  | x :: _ => path_edges (cycle ++ [x])
  end.

(** ** Sample inputs *)

(** The coordinates of [test_two_squares]. *)
Definition square_coords : gmap Node (Coord Qc) :=
  list_to_map [(0, (Q2Qc 0, Q2Qc 0)); (1, (Q2Qc 0, Q2Qc 1));
               (2, (Q2Qc 1, Q2Qc 1)); (3, (Q2Qc 1, Q2Qc 0));
               (4, (Q2Qc 2, Q2Qc 0)); (5, (Q2Qc 2, Q2Qc 1))]%Z.

(** A quadrilateral with one far-away corner, as floats and as the same
    numbers in exact arithmetic. *)
Definition float_coords : gmap Node (Coord float) :=
  list_to_map [(0%Z, (1, 0)%float); (1%Z, (0, 1)%float);
               (2%Z, (-1e18, -16)%float); (3%Z, (2, 1)%float)].

Definition exact_coords : gmap Node (Coord Qc) :=
  list_to_map [(0, (Q2Qc 1, Q2Qc 0)); (1, (Q2Qc 0, Q2Qc 1));
               (2, (Q2Qc (-1000000000000000000), Q2Qc (-16)));
               (3, (Q2Qc 2, Q2Qc 1))]%Z.

(** Every node of a literal list has coordinates in a literal map. *)
Ltac solve_defined :=
  let n := fresh "n" in let Hn := fresh "Hn" in
  intros n Hn;
  repeat (apply elem_of_cons in Hn as [->|Hn]; [vm_compute; eauto|]);
  by apply elem_of_nil in Hn.

(** Two edge sets link the same pairs of nodes, with as many edges: this
    is all the walk of [to_node_list] reads of an edge set. *)
Definition same_links (E E' : gset Edge) : Prop :=
  size E = size E' ∧
  set_map (D:=gset (gset Node)) edge_nodes E = set_map edge_nodes E'.

(** The edge set [E] is a single simple ring through the nodes of [L], in
    this cyclic order: at least three distinct nodes, each linked to the
    next and the last to the first, and no other edge. *)
Definition simple_ring (E : gset Edge) (L : list Node) : Prop :=
  NoDup L ∧ (3 ≤ length L)%nat ∧ same_links E (cycle_edges L).

(** [y] is linked to [u] by an edge of [E]. *)
Definition linked (E : gset Edge) (u y : Node) : Prop :=
  ∃ e, e ∈ E ∧ u ∈ edge_nodes e ∧ y ∈ edge_nodes e.

(** A decidable proposition about literal data, by evaluation. *)
Ltac by_computation :=
  refine (bool_decide_unpack _ _); vm_compute; exact I.

(** ** The ring finder *)

(** The graph handed to [RingFinder]: the edges given to
    [add_edges_from], each a pair of nodes. *)
Abbreviation Graph := (list (Node * Node)).

Section ring_finder.
Context {T : Type} `{!Number T}.

(** Modelled from the spec: the Angular Face Tracer and [RingFinder]
    ([ring_finder.py] is missing; only its test is present).  The model
    follows sections 4.2 and 4.3 of the specification: every node's
    neighbours are put in the cyclic order of their atan2 angle; the
    face of a half-edge [(u, v)] is traced by leaving [v] along the
    neighbour that follows the direction back to [u] in the clockwise
    sense, until the first half-edge comes back; half-edges used by a
    face are not traced again.  A traced face with positive signed area
    is an interior ring; the perimeter rings are the edge-XOR merges of
    the interior rings of each connected component of the graph.

    The neighbours of [v], in the order the edges were added. *)
Definition neighbours (G : Graph) (v : Node) : list Node :=
  remove_dups
    (flat_map (λ '(a, b), if decide (a = v) then [b]
                          else if decide (b = v) then [a] else []) G).

(** Modelled from the spec: a node of degree 1 is excluded prior to
    tracing (section 4.2, edge cases). *)
Definition exclude_dangling (G : Graph) : Graph :=
  filter (λ '(a, b), 2 ≤ length (neighbours G a) ∧ 2 ≤ length (neighbours G b))%nat G.

(** Modelled from the spec: the position of a direction in the atan2
    order, from just above -pi up to pi: the lower half-plane, the
    positive x axis, the upper half-plane, the negative x axis. *)
Definition angle_class (d : Coord T) : nat :=
  if num_ltb d.2 num_zero then 0
  else if num_ltb num_zero d.2 then 2
  else if num_ltb num_zero d.1 then 1
  else 3.

(** Modelled from the spec: [atan2 d1 <= atan2 d2], decided without
    trigonometry: inside one class the angles differ by less than pi, and
    the sign of the cross product orders them. *)
Definition angle_leb (d1 d2 : Coord T) : bool :=
  if (angle_class d1 <? angle_class d2)%nat then true
  else if (angle_class d2 <? angle_class d1)%nat then false
  else negb (num_ltb (num_sub (num_mul d1.1 d2.2) (num_mul d1.2 d2.1)) num_zero).

(** Modelled from the spec: the vector from [u] to [v]; a node without
    coordinates is a fatal configuration error (section 4.3). *)
Definition direction (coords : gmap Node (Coord T)) (u v : Node)
  : result (Coord T) :=
  p ← dict_get coords u;
  q ← dict_get coords v;
  Ok (num_sub q.1 p.1, num_sub q.2 p.2).

(** Modelled from the spec: insertion into a list sorted by angle. *)
Fixpoint insert_by_angle (x : Node * Coord T) (l : list (Node * Coord T))
  : list (Node * Coord T) :=
  match l with
  | [] => [x]
  | y :: l' => if angle_leb x.2 y.2 then x :: l
               else y :: insert_by_angle x l'
  end.

(** Modelled from the spec: section 4.2, step 1: the neighbours of [v]
    sorted by the angle of the vector from [v] to the neighbour. *)
Definition sorted_neighbours (G : Graph) (coords : gmap Node (Coord T))
    (v : Node) : result (list Node) :=
  ds ← mapM (M:=result) (λ n, d ← direction coords v n; Ok (n, d)) (neighbours G v);
  Ok ((foldr insert_by_angle [] ds).*1).

(** Modelled from the spec: the position of the direction back to [x]
    among the sorted neighbours. *)
Fixpoint index_of (x : Node) (l : list Node) : nat :=
  match l with
  | [] => 0
  | y :: l' => if decide (x = y) then 0 else S (index_of x l')
  end.

(** Modelled from the spec: section 4.2, step 3: the half-edge that
    follows [(u, v)] on its face leaves [v] for the neighbour next to [u]
    clockwise, that is the one before [u] in the order of increasing
    angle. *)
Definition next_half_edge (G : Graph) (coords : gmap Node (Coord T))
    (h : Node * Node) : result (Node * Node) :=
  ns ← sorted_neighbours G coords h.2;
  let k := length ns in
  w ← list_get ns ((index_of h.1 ns + k - 1) `mod` k);
  Ok (h.2, w).

(** Modelled from the spec: section 4.2, step 3: the half-edges of the
    face of [start], from [cur] on.  A face has at most as many half-edges
    as the graph, which bounds the recursion. *)
Fixpoint trace_face (G : Graph) (coords : gmap Node (Coord T)) (fuel : nat)
    (start cur : Node * Node) : result (list (Node * Node)) :=
  match fuel with
  | 0 => Ok [cur]
  | S fuel' =>
      nxt ← next_half_edge G coords cur;
      if decide (nxt = start) then Ok [cur]
      else rest ← trace_face G coords fuel' start nxt; Ok (cur :: rest)
  end.

(** Modelled from the spec: section 4.2, step 4: every half-edge is
    traced once; the faces are returned as node sequences. *)
Fixpoint trace_faces (G : Graph) (coords : gmap Node (Coord T))
    (pending consumed : list (Node * Node)) : result (list (list Node)) :=
  match pending with
  | [] => Ok []
  | h :: pending' =>
      if decide (h ∈ consumed) then trace_faces G coords pending' consumed
      else
        face ← trace_face G coords (2 * length G) h h;
        faces ← trace_faces G coords pending' (consumed ++ face);
        Ok (face.*1 :: faces)
  end.

(** Modelled from the spec: section 4.2, step 2: each undirected edge
    yields two half-edges. *)
Definition half_edges (G : Graph) : list (Node * Node) :=
  flat_map (λ '(a, b), [(a, b); (b, a)]) G.

(** Modelled from the spec: section 4.2, step 5: a traced face becomes a
    [Shape] over the edges it used. *)
Definition face_shape (coords : gmap Node (Coord T)) (face : list Node)
  : Shape T :=
  mkShape (node_list_to_edges face true) (Some coords).

(** Modelled from the spec: a result set of shapes, unique under
    edge-set equality (section 3): a list without two equal shapes. *)
Fixpoint add_shape (s : Shape T) (set : list (Shape T)) : list (Shape T) :=
  match set with
  | [] => [s]
  | s' :: set' => if Shape_eq s s' then set else s' :: add_shape s set'
  end.

(** Modelled from the spec: section 4.3, step 2: the faces with positive
    signed area are the interior rings. *)
Fixpoint interior_faces (coords : gmap Node (Coord T))
    (faces : list (list Node)) : result (list (list Node)) :=
  match faces with
  | [] => Ok []
  | face :: faces' =>
      signed_area ← calculate_polygon_area face coords;
      rest ← interior_faces coords faces';
      Ok (if num_ltb num_zero signed_area then face :: rest else rest)
  end.

(** Modelled from the spec: the connected component of the graph that
    holds the nodes [S]. *)
Fixpoint component (G : Graph) (fuel : nat) (S : gset Node) : gset Node :=
  match fuel with
  | 0 => S
  | S fuel' =>
      component G fuel'
        (S ∪ list_to_set
               (flat_map (λ '(a, b), if decide (a ∈ S ∨ b ∈ S) then [a; b] else [])
                         G))
  end.

(** Modelled from the spec: section 4.3, step 2: the interior rings of
    one connected component are merged, which cancels the edges two of
    them share. *)
Fixpoint merge_into (groups : list (gset Node * Shape T))
    (comp : gset Node) (ring : Shape T)
  : result (list (gset Node * Shape T)) :=
  match groups with
  | [] => Ok [(comp, ring)]
  | (c, s) :: groups' =>
      if decide (c = comp) then s' ← merge s ring; Ok ((c, s') :: groups')
      else rest ← merge_into groups' comp ring; Ok ((c, s) :: rest)
  end.

(** Modelled from the spec: section 4.3, step 2: every interior ring is
    merged into the shape of its component. *)
Fixpoint merge_components (G : Graph) (rings : list (Shape T))
    (groups : list (gset Node * Shape T))
  : result (list (gset Node * Shape T)) :=
  match rings with
  | [] => Ok groups
  | ring :: rings' =>
      groups' ← merge_into groups (component G (length G) (nodes ring)) ring;
      merge_components G rings' groups'
  end.

(** Modelled from the spec: the two result sets of a [RingFinder]
    (section 3). *)
Record RingFinder := mkRingFinder {
  current_rings : list (Shape T);
  perimeter_rings : list (Shape T);
}.

(** Modelled from the spec: [RingFinder(graph, coords_dict)], section
    4.3: trace every face, keep the interior ones as [current_rings], and
    merge them per connected component into [perimeter_rings]. *)
Definition RingFinder_init (graph : Graph) (coords : gmap Node (Coord T))
  : result RingFinder :=
  let G := exclude_dangling graph in
  faces ← trace_faces G coords (half_edges G) [];
  interior ← interior_faces coords faces;
  let rings := foldr add_shape [] (face_shape coords <$> interior) in
  groups ← merge_components G rings [];
  Ok (mkRingFinder rings (foldr add_shape [] (groups.*2))).
End ring_finder.

Arguments RingFinder T : clear implicits.

(** The graph and the coordinates of [test_two_squares]. *)
Definition two_squares : Graph :=
  [(0, 1); (1, 2); (2, 3); (3, 0); (2, 5); (4, 5); (3, 4)]%Z.

Definition two_squares_coords : gmap Node (Coord float) :=
  list_to_map [(0%Z, (0, 0)%float); (1%Z, (0, 1)%float);
               (2%Z, (1, 1)%float); (3%Z, (1, 0)%float);
               (4%Z, (2, 0)%float); (5%Z, (2, 1)%float)].

(** The two squares of [test_two_squares], as shapes over those
    coordinates, and the same squares without coordinates. *)
Definition left_square : Shape float :=
  mkShape (node_list_to_edges [0; 1; 2; 3]%Z true) (Some two_squares_coords).

Definition right_square : Shape float :=
  mkShape (node_list_to_edges [2; 3; 4; 5]%Z true) (Some two_squares_coords).

Definition hexagon : Shape float :=
  mkShape (node_list_to_edges [0; 1; 2; 5; 4; 3]%Z true) (Some two_squares_coords).

(** The right square, with node 2 somewhere else. *)
Definition moved_square : Shape float :=
  mkShape (node_list_to_edges [2; 3; 4; 5]%Z true)
    (Some (<[2%Z := (1, 1.5)%float]> two_squares_coords)).

Definition abstract_left : Shape float :=
  mkShape (node_list_to_edges [0; 1; 2; 3]%Z true) None.

Definition abstract_right : Shape float :=
  mkShape (node_list_to_edges [2; 3; 4; 5]%Z true) None.

(** Two rings that share the nodes 1 and 8, with coordinate maps that
    disagree on node 1 and have no entry for node 8. *)
Definition coords_0189 : gmap Node (Coord float) :=
  list_to_map [(0%Z, (0, 0)%float); (1%Z, (0, 1)%float); (9%Z, (1, 0)%float)].

Definition coords_1845 : gmap Node (Coord float) :=
  list_to_map [(1%Z, (5, 5)%float); (4%Z, (2, 0)%float); (5%Z, (2, 1)%float)].

Definition ring_0189 : Shape float :=
  mkShape (node_list_to_edges [0; 1; 8; 9]%Z true) (Some coords_0189).

Definition ring_1845 : Shape float :=
  mkShape (node_list_to_edges [1; 8; 4; 5]%Z true) (Some coords_1845).

(** ** The polygon of a shape *)

Section polygon.
Context {T : Type} `{!Number T}.

(** [Shape.to_polygon]: the rows of [coord_array], the vertices handed
    to matplotlib's [Polygon(coord_array, closed=True)]. *)
Definition to_polygon (self : Shape T) : result (list (Coord T)) :=
  match coords_dict self with
  | None => Raise ValueError
  | Some coords =>
      node_list ← to_node_list self;
      mapM (M:=result) (λ node, dict_get coords node) node_list
  end.
End polygon.

(** Every step of the list goes from a node to the smallest node linked
    to it that the list has not visited yet. *)
Definition greedy_walk (E : gset Edge) (L : list Node) : Prop :=
  ∀ i u w, L !! i = Some u → L !! S i = Some w →
    linked E u w ∧ (w ∉ take (S i) L) ∧
    ∀ y, linked E u y → y ∉ take (S i) L → (w ≤ y)%Z.

(** ** The polygon generator of the tests *)

Section generate_polygon.
(** [math.sin], [math.cos], [math.pi] and the conversion of an integer to
    a float are taken as given. *)
Variables (sin cos : float → float) (pi : float) (float_of_int : Z → float).

(** The loop of [generate_polygon] over [range(num_sides)]. *)
Fixpoint generate_polygon_loop (num_sides : Z) (angle radius : float)
    (centre : Coord float) (edge_offset : Z) (range : list Z)
    (coordinates : gmap Node (Coord float)) (edges : list (Node * Node))
  : gmap Node (Coord float) * list (Node * Node) :=
  match range with
  | [] => (coordinates, edges)
  | i :: range' =>
      let edges :=
        edges ++ [((i + edge_offset)%Z, ((i + 1) `mod` num_sides + edge_offset)%Z)] in
      let this_coord :=
        ((radius * sin (float_of_int i * angle))%float,
         (radius * cos (float_of_int i * angle))%float) in
      let coordinates :=
        <[i := ((this_coord.1 + centre.1)%float, (this_coord.2 + centre.2)%float)]>
          coordinates in
      generate_polygon_loop num_sides angle radius centre edge_offset range'
        coordinates edges
  end.

(** [generate_polygon(num_sides, radius, centre, edge_offset)] of the
    test module; [None] is the ZeroDivisionError of
    [2 * math.pi / num_sides] when [num_sides] is 0. *)
Definition generate_polygon (num_sides : Z) (radius : float)
    (centre : Coord float) (edge_offset : Z)
  : option (gmap Node (Coord float) * list (Node * Node)) :=
  if decide (num_sides = 0%Z) then None
  else
    let angle := (2 * pi / float_of_int num_sides)%float in
    Some (generate_polygon_loop num_sides angle radius centre edge_offset
            (Z.of_nat <$> seq 0 (Z.to_nat num_sides)) ∅ []).
End generate_polygon.

(** The nodes [first, first + 1, ...], [count] of them. *)
Definition node_range (first : Z) (count : nat) : list Node :=
  (λ i, (Z.of_nat i + first)%Z) <$> seq 0 count.

(** An edge tuple as an edge of a shape. *)
Definition tuple_edge (e : Node * Node) : Edge := Tuple e.1 e.2.

(** * Properties *)

(** ** Merging *)

Section merge_facts.
Context {T : Type} `{!Number T}.
Implicit Types A B S : Shape T.

Lemma elem_of_nodes A n :
  n ∈ nodes A ↔ ∃ e, e ∈ edges A ∧ n ∈ edge_nodes e.
Proof.
  unfold nodes. rewrite elem_of_union_list. split.
  - intros (X & HX & Hn). apply list_elem_of_fmap in HX as (e & -> & He).
    exists e. by rewrite <- elem_of_elements.
  - intros (e & He & Hn). exists (edge_nodes e). split; [|done].
    apply list_elem_of_fmap. exists e. by rewrite elem_of_elements.
Qed.

Lemma elem_of_symmetric_difference `{Countable K} (X Y : gset K) x :
  x ∈ symmetric_difference X Y ↔ (x ∈ X ∧ (x ∉ Y)) ∨ ((x ∉ X) ∧ x ∈ Y).
Proof. unfold symmetric_difference. set_solver. Qed.

Lemma symmetric_difference_cancel `{Countable K} (X Y : gset K) :
  symmetric_difference (symmetric_difference X Y) Y = X.
Proof.
  apply set_eq. intros x. rewrite !elem_of_symmetric_difference.
  destruct (decide (x ∈ X)), (decide (x ∈ Y)); naive_solver.
Qed.

Lemma check_common_Ok A B l :
  check_common A B l = Ok () ↔ ∀ n, n ∈ l → agree_at A B n.
Proof.
  induction l as [|n l IH]; simpl.
  - split; [|done]. intros _ n Hn. by apply elem_of_nil in Hn.
  - unfold agree_at in *. split.
    + intros Hc m Hm.
      destruct (coord_of A n) as [a|] eqn:Ha; [|done].
      destruct (coord_of B n) as [b|] eqn:Hb; [|done]. simpl in Hc.
      destruct (coord_equal a b) eqn:Hab; [|done].
      apply elem_of_cons in Hm as [->|Hm]; [by eauto|].
      by apply IH.
    + intros Hall.
      destruct (Hall n) as (a & b & -> & -> & Hab); [by left|]. simpl.
      rewrite Hab. apply IH. intros m Hm. apply Hall. by right.
Qed.

Lemma check_common_cases A B l :
  check_common A B l = Ok () ∨ ∃ e, check_common A B l = Raise e.
Proof. destruct (check_common A B l) as [[]|e]; eauto. Qed.

(** With every listed node present in both maps, the loop can only fail
    with the ValueError of [merge]. *)
Lemma check_common_total A B l :
  (∀ n, n ∈ l → ∃ a b, coord_of A n = Ok a ∧ coord_of B n = Ok b) →
  check_common A B l = Ok () ∨ check_common A B l = Raise ValueError.
Proof.
  induction l as [|n l IH]; simpl; [by left|]. intros Hall.
  destruct (Hall n) as (a & b & -> & ->); [by left|]. simpl.
  destruct (coord_equal a b); [|by right].
  apply IH. intros m Hm. apply Hall. by right.
Qed.

Lemma check_common_abstract A B l :
  coords_dict A = None → l ≠ [] → check_common A B l = Raise TypeError.
Proof.
  intros HA Hl. destruct l as [|n l]; [done|].
  simpl. unfold coord_of. by rewrite HA.
Qed.

Lemma merge_Ok_inv A B S :
  merge A B = Ok S →
  check_common A B (elements (nodes A ∩ nodes B)) = Ok () ∧
  S = mkShape (symmetric_difference (edges A) (edges B)) (coords_dict A).
Proof.
  unfold merge. destruct (check_common _ _ _) as [[]|e]; simpl; [|done].
  intros [= <-]. done.
Qed.

Lemma merge_Ok_intro A B :
  (∀ n, n ∈ nodes A → n ∈ nodes B → agree_at A B n) →
  merge A B =
    Ok (mkShape (symmetric_difference (edges A) (edges B)) (coords_dict A)).
Proof.
  intros Hagree. unfold merge.
  assert (check_common A B (elements (nodes A ∩ nodes B)) = Ok ()) as ->; [|done].
  apply check_common_Ok. intros n Hn.
  apply elem_of_elements, elem_of_intersection in Hn as [??]. by apply Hagree.
Qed.

(** C2: when the coordinate maps of A and B agree on every node the two
    shapes share, [A.merge(B)] returns a shape (carrying A's coordinate
    map) whose edge set is the symmetric difference: an edge is in the
    result iff it is in exactly one of the operands. *)
Theorem merge_symmetric_difference A B :
  (∀ n, n ∈ nodes A → n ∈ nodes B →
     ∃ a b, coord_of A n = Ok a ∧ coord_of B n = Ok b ∧
            coord_equal a b = true) →
  ∃ S, merge A B = Ok S ∧
       coords_dict S = coords_dict A ∧
       ∀ e, e ∈ edges S ↔
            (e ∈ edges A ∧ (e ∉ edges B)) ∨ ((e ∉ edges A) ∧ e ∈ edges B).
Proof.
  intros Hagree. eexists. split; [by apply merge_Ok_intro|].
  split; [done|]. intros e. simpl. apply elem_of_symmetric_difference.
Qed.

(** With both coordinate maps present, the loop returns or fails with
    the ValueError of [merge] or the KeyError of a subscript. *)
Lemma check_common_concrete A B ca cb l :
  coords_dict A = Some ca →
  coords_dict B = Some cb →
  check_common A B l = Ok () ∨ check_common A B l = Raise ValueError ∨
  check_common A B l = Raise KeyError.
Proof.
  intros HA HB. induction l as [|n l IH]; simpl; [by left|].
  unfold coord_of. rewrite HA, HB. unfold dict_get.
  destruct (ca !! n) as [a|]; simpl; [|by right; right].
  destruct (cb !! n) as [b|]; simpl; [|by right; right].
  destruct (coord_equal a b); [done|by right; left].
Qed.

(** C3 (amended): for two shapes that both carry a coordinate map, a
    shared node with different coordinates in the two maps makes [merge]
    raise: ValueError when every shared node has an entry in both maps,
    and ValueError or KeyError otherwise (a shared node missing from a map
    makes the subscript raise KeyError when the loop reaches it first).
    [merge] returns a shape only when every shared node has equal
    coordinates in both maps. *)
Theorem merge_conflicting_coordinates A B ca cb :
  coords_dict A = Some ca →
  coords_dict B = Some cb →
  ((∃ n a b, n ∈ nodes A ∩ nodes B ∧ ca !! n = Some a ∧ cb !! n = Some b ∧
             coord_equal a b = false) →
   (merge A B = Raise ValueError ∨ merge A B = Raise KeyError) ∧
   ((∀ n, n ∈ nodes A ∩ nodes B → is_Some (ca !! n) ∧ is_Some (cb !! n)) →
    merge A B = Raise ValueError)) ∧
  (∀ S, merge A B = Ok S →
        ∀ n, n ∈ nodes A ∩ nodes B →
             ∃ a b, ca !! n = Some a ∧ cb !! n = Some b ∧
                    coord_equal a b = true).
Proof.
  intros HA HB.
  assert (Hget : ∀ n, coord_of A n = dict_get ca n ∧ coord_of B n = dict_get cb n).
  { intros n. unfold coord_of. by rewrite HA, HB. }
  assert (Hinv : ∀ n, n ∈ nodes A ∩ nodes B → agree_at A B n →
            ∃ a b, ca !! n = Some a ∧ cb !! n = Some b ∧ coord_equal a b = true).
  { intros n Hn (a & b & Ha & Hb & Hab).
    destruct (Hget n) as [Ea Eb]. rewrite Ea in Ha. rewrite Eb in Hb.
    unfold dict_get in Ha, Hb.
    destruct (ca !! n) as [a'|]; [|done]. destruct (cb !! n) as [b'|]; [|done].
    exists a', b'. by simplify_eq. }
  split.
  - intros (n & a & b & Hn & Han & Hbn & Hab).
    assert (Hnot : check_common A B (elements (nodes A ∩ nodes B)) ≠ Ok ()).
    { intros Hok. rewrite check_common_Ok in Hok.
      destruct (Hinv n Hn) as (a' & b' & ? & ? & ?);
        [by apply Hok, elem_of_elements|]. congruence. }
    split.
    + destruct (check_common_concrete A B ca cb
                  (elements (nodes A ∩ nodes B)) HA HB) as [Hok|[Herr|Herr]];
        [done|left|right]; unfold merge; by rewrite Herr.
    + intros Htotal.
      destruct (check_common_total A B (elements (nodes A ∩ nodes B)))
        as [Hok|Herr]; [|done|].
      * intros m Hm. apply elem_of_elements in Hm.
        destruct (Htotal m Hm) as [[a' Ha'] [b' Hb']]. exists a', b'.
        destruct (Hget m) as [-> ->]. unfold dict_get. by rewrite Ha', Hb'.
      * unfold merge. by rewrite Herr.
  - intros S HS n Hn. apply merge_Ok_inv in HS as [Hok _].
    rewrite check_common_Ok in Hok. apply Hinv; [done|].
    by apply Hok, elem_of_elements.
Qed.

(** C7: when neither merge raises, merging B in twice gives back a
    shape equal to A. *)
Theorem merge_involutive A B AB R :
  merge A B = Ok AB →
  merge AB B = Ok R →
  Shape_eq R A = true.
Proof.
  intros [_ ->]%merge_Ok_inv [_ ->]%merge_Ok_inv.
  unfold Shape_eq. simpl. apply bool_decide_eq_true.
  apply symmetric_difference_cancel.
Qed.

(** C9: two abstract shapes (no coordinate map) that share a node
    cannot be merged: the consistency check subscripts the missing map
    and raises TypeError, not ValueError.  Abstract shapes merge exactly
    when they share no node. *)
Theorem merge_abstract A B :
  coords_dict A = None →
  coords_dict B = None →
  (nodes A ∩ nodes B ≠ ∅ → merge A B = Raise TypeError) ∧
  (nodes A ∩ nodes B = ∅ →
     merge A B = Ok (mkShape (symmetric_difference (edges A) (edges B)) None)) ∧
  ((∃ S, merge A B = Ok S) ↔ nodes A ∩ nodes B = ∅).
Proof.
  intros HA HB.
  assert (H1 : nodes A ∩ nodes B ≠ ∅ → merge A B = Raise TypeError).
  { intros Hne. unfold merge.
    assert (elements (nodes A ∩ nodes B) ≠ []) as Hel.
    { intros Hel. by apply elements_empty_inv, leibniz_equiv in Hel. }
    by rewrite (check_common_abstract A B _ HA Hel). }
  assert (H2 : nodes A ∩ nodes B = ∅ →
     merge A B = Ok (mkShape (symmetric_difference (edges A) (edges B)) None)).
  { intros He. unfold merge. rewrite He, elements_empty. simpl. by rewrite HA. }
  split_and!; [done..|]. split.
  - intros [S HS]. destruct (decide (nodes A ∩ nodes B = ∅)) as [|Hne]; [done|].
    rewrite (H1 Hne) in HS. done.
  - intros He. eexists. by apply H2.
Qed.
End merge_facts.

(** ** Equality, hash, membership, length *)

Section edge_set_semantics.
Context {T : Type} `{!Number T}.

Lemma Shape_eq_spec (A B : Shape T) :
  Shape_eq A B = true ↔ edges A = edges B.
Proof. unfold Shape_eq. apply bool_decide_eq_true. Qed.

(** C4 (amended): equality, hash, membership and length of shapes are
    those of the frozen edge set.  Shapes built from edge sequences with
    the same elements are equal and hash equal whatever the order or
    repetition of the edges and whatever their coordinate maps; [len]
    counts the distinct edges; [e in shape] holds iff [e] was supplied;
    an edge supplied as a frozenset does not depend on the order of its
    two nodes. *)
Theorem Shape_edge_set_semantics (hash : gset Edge → Z)
    (l1 l2 : list Edge) (c1 c2 : option (gmap Z (Coord T))) :
  (∀ e, e ∈ l1 ↔ e ∈ l2) →
  Shape_eq (Shape_init l1 c1) (Shape_init l2 c2) = true ∧
  Shape_hash hash (Shape_init l1 c1) = Shape_hash hash (Shape_init l2 c2) ∧
  Shape_len (Shape_init l1 c1) = length (remove_dups l1) ∧
  (∀ e, Shape_contains (Shape_init l1 c1) e = true ↔ e ∈ l1) ∧
  (∀ u v : Z, Shape_eq (Shape_init [Frozen {[u; v]}] c1)
                       (Shape_init [Frozen {[v; u]}] c2) = true).
Proof.
  intros Hsame.
  assert (Heq : list_to_set (C:=gset Edge) l1 = list_to_set l2).
  { apply set_eq. intros e. rewrite !elem_of_list_to_set. apply Hsame. }
  split_and!.
  - by apply Shape_eq_spec.
  - unfold Shape_hash. simpl. by rewrite Heq.
  - unfold Shape_len. simpl.
    rewrite <- (size_list_to_set (C:=gset Edge) (remove_dups l1))
      by apply NoDup_remove_dups.
    f_equal. apply set_eq. intros e.
    by rewrite !elem_of_list_to_set, elem_of_remove_dups.
  - intros e. unfold Shape_contains. simpl.
    by rewrite bool_decide_eq_true, elem_of_list_to_set.
  - intros u v. apply Shape_eq_spec. simpl. f_equal.
    do 2 f_equal. apply set_eq. set_solver.
Qed.
End edge_set_semantics.

Lemma Shape_edge_set_semantics_witness :
  let l1 := [Frozen {[0; 1]}; Frozen {[1; 2]}; Tuple 2 0]%Z in
  let l2 := [Tuple 2 0; Frozen {[2; 1]}; Frozen {[1; 0]}; Tuple 2 0]%Z in
  Shape_eq (T:=Qc) (Shape_init l1 None) (Shape_init l2 (Some ∅)) = true ∧
  Shape_len (T:=Qc) (Shape_init l2 None) = 3.
Proof.
  intros l1 l2.
  assert (Hsame : ∀ e, e ∈ l1 ↔ e ∈ l2).
  { intros e. unfold l1, l2. rewrite !elem_of_cons, !elem_of_nil.
    assert (({[0; 1]} : gset Z) = {[1; 0]})%Z as -> by (apply set_eq; set_solver).
    assert (({[1; 2]} : gset Z) = {[2; 1]})%Z as -> by (apply set_eq; set_solver).
    tauto. }
  split.
  - apply (Shape_edge_set_semantics (λ _, 0%Z) l1 l2 None (Some ∅) Hsame).
  - vm_compute. reflexivity.
Defined.

(** Two shapes over the same link, given as the tuples (0, 1) and (1, 0),
    are not equal. *)
Lemma Shape_eq_tuple_orientation :
  let A : Shape Qc := Shape_init [Tuple 0 1]%Z None in
  let B : Shape Qc := Shape_init [Tuple 1 0]%Z None in
  nodes A = nodes B ∧ Shape_eq A B = false.
Proof. vm_compute. split; reflexivity. Qed.

(** ** The signed area *)

Lemma dict_get_Some {V} (d : gmap Z V) k v : d !! k = Some v → dict_get d k = Ok v.
Proof. unfold dict_get. by intros ->. Qed.

Lemma list_get_Some {A} (l : list A) i x : l !! i = Some x → list_get l i = Ok x.
Proof. unfold list_get. by intros ->. Qed.

Section exact_area.
Open Scope Qc_scope.
Implicit Types (L : list Z) (coords : gmap Z (Coord Qc)) (g : Z → Z → Qc).

Lemma path_sum_cons g a b l :
  path_sum g (a :: b :: l) = g a b + path_sum g (b :: l).
Proof. done. Qed.

Lemma path_sum_snoc g l a b :
  path_sum g (l ++ [a; b]) = path_sum g (l ++ [a]) + g a b.
Proof.
  induction l as [|x l IH]; [simpl; ring|].
  destruct l as [|y l]; [simpl; ring|].
  rewrite <- !app_comm_cons in *.
  rewrite !path_sum_cons, IH. ring.
Qed.

Lemma path_sum_reverse g l :
  (∀ a b, g b a = - g a b) →
  path_sum g (reverse l) = - path_sum g l.
Proof.
  intros Hanti. induction l as [|x l IH]; [rewrite reverse_nil; simpl; ring|].
  destruct l as [|y l]; [rewrite reverse_singleton; simpl; ring|].
  rewrite path_sum_cons, reverse_cons.
  rewrite reverse_cons in IH |- *. rewrite <- app_assoc.
  change ([y] ++ [x]) with [y; x].
  rewrite path_sum_snoc, IH, Hanti. ring.
Qed.

Lemma cycle_sum_rotate1 g x l :
  cycle_sum g (x :: l) = cycle_sum g (l ++ [x]).
Proof.
  destruct l as [|y l]; [done|]. unfold cycle_sum. cbn [app].
  rewrite path_sum_cons, <- app_assoc. cbn [app].
  rewrite (app_comm_cons l [x; y] y), path_sum_snoc.
  rewrite <- app_comm_cons. ring.
Qed.

Lemma cycle_sum_app g l1 l2 :
  cycle_sum g (l1 ++ l2) = cycle_sum g (l2 ++ l1).
Proof.
  revert l2. induction l1 as [|x l1 IH]; intros l2.
  - by rewrite app_nil_r.
  - rewrite <- app_comm_cons, cycle_sum_rotate1, <- app_assoc, IH.
    by rewrite <- app_assoc.
Qed.

Lemma cycle_sum_rotate g n L : cycle_sum g (rotate n L) = cycle_sum g L.
Proof.
  unfold rotate. rewrite cycle_sum_app. by rewrite take_drop.
Qed.

Lemma cycle_sum_reverse g L :
  (∀ a b, g b a = - g a b) →
  cycle_sum g (reverse L) = - cycle_sum g L.
Proof.
  intros Hanti. destruct L as [|x l]; [rewrite reverse_nil; simpl; ring|].
  rewrite reverse_cons, <- cycle_sum_rotate1. unfold cycle_sum.
  rewrite <- path_sum_reverse by done. f_equal.
  by rewrite reverse_app, reverse_singleton, reverse_cons.
Qed.

Lemma shoelace_term_anti coords a b :
  shoelace_term coords b a = - shoelace_term coords a b.
Proof. unfold shoelace_term. simpl. ring. Qed.

(** The loop of [calculate_polygon_area] from position [length l1] on. *)
Lemma area_loop_exact coords l1 l2 x acc :
  l1 ++ l2 = x :: drop 1 (l1 ++ l2) →
  (∀ n, n ∈ l1 ++ l2 → is_Some (coords !! n)) →
  area_loop (l1 ++ l2) coords
    (imap (λ i node, (length l1 + i, node)%nat) l2) acc =
  Ok (acc + path_sum (shoelace_term coords) (l2 ++ [x])).
Proof.
  revert l1 acc. induction l2 as [|a l2 IH]; intros l1 acc Hx Hdef.
  - simpl. f_equal. ring.
  - simpl imap. unfold area_loop; fold (area_loop (T:=Qc)).
    destruct (Hdef a) as [pa Ha]; [set_solver|].
    rewrite (dict_get_Some _ _ _ Ha). simpl.
    set (nxt := match l2 with [] => x | b :: _ => b end).
    assert (list_get (l1 ++ a :: l2)
              ((length l1 + 0 + 1) `mod` length (l1 ++ a :: l2)) = Ok nxt) as ->.
    { apply list_get_Some. unfold nxt. rewrite length_app. simpl.
      destruct l2 as [|b l2]; simpl.
      - replace (length l1 + 0 + 1)%nat with (length l1 + 1)%nat by lia.
        rewrite Nat.Div0.mod_same. rewrite Hx. done.
      - rewrite Nat.mod_small by lia.
        rewrite lookup_app_r by lia.
        by replace (length l1 + 0 + 1 - length l1)%nat with 1%nat by lia. }
    simpl.
    destruct (Hdef nxt) as [pn Hn].
    { unfold nxt. destruct l2; [rewrite Hx|]; set_solver. }
    rewrite (dict_get_Some _ _ _ Hn). simpl.
    specialize (IH (l1 ++ [a]) (acc + (pa.1 * pn.2 - pa.2 * pn.1))).
    rewrite <- app_assoc in IH. simpl in IH.
    rewrite (imap_ext _ (λ i node, (length (l1 ++ [a]) + i, node)%nat) l2).
    2:{ intros i y _. simpl. rewrite length_app. simpl. f_equal. lia. }
    rewrite IH by done. f_equal.
    assert (shoelace_term coords a nxt = pa.1 * pn.2 - pa.2 * pn.1) as Hterm.
    { unfold shoelace_term. by rewrite Ha, Hn. }
    unfold nxt in *. destruct l2 as [|b l2]; simpl; rewrite Hterm; ring.
Qed.

Lemma calculate_polygon_area_exact L coords :
  (∀ n, n ∈ L → is_Some (coords !! n)) →
  calculate_polygon_area L coords =
    Ok (Q2Qc (1 # 2) * cycle_sum (shoelace_term coords) L).
Proof.
  intros Hdef. unfold calculate_polygon_area, enumerate.
  destruct L as [|x l]; [simpl; f_equal; ring|].
  pose proof (area_loop_exact coords [] (x :: l) x num_zero eq_refl Hdef) as H.
  cbn [app length Nat.add] in H. rewrite H. simpl. f_equal. ring.
Qed.
End exact_area.

Section exact_area_thms.
Open Scope Qc_scope.
Implicit Types (L : list Z) (coords : gmap Z (Coord Qc)).

Lemma calculate_polygon_area_reverse L coords :
  (∀ n, n ∈ L → is_Some (coords !! n)) →
  calculate_polygon_area (reverse L) coords =
    Ok (- (Q2Qc (1 # 2) * cycle_sum (shoelace_term coords) L)).
Proof.
  intros Hdef. rewrite calculate_polygon_area_exact.
  - rewrite cycle_sum_reverse by apply shoelace_term_anti. f_equal. ring.
  - intros n Hn. apply Hdef. by apply elem_of_reverse.
Qed.

Lemma calculate_polygon_area_rotate n L coords :
  (∀ n, n ∈ L → is_Some (coords !! n)) →
  calculate_polygon_area (rotate n L) coords = calculate_polygon_area L coords.
Proof.
  intros Hdef. rewrite !calculate_polygon_area_exact; [|done|].
  - by rewrite cycle_sum_rotate.
  - intros x Hx. apply Hdef. by apply elem_of_rotate in Hx.
Qed.

(** C6 (amended): when the shoelace sum is computed in exact arithmetic,
    the signed area of the reversed node list is the negation of the
    signed area of the node list, for every node list and every
    coordinate map defined on its nodes. *)
Theorem area_reverse_exact L coords :
  (∀ n, n ∈ L → is_Some (coords !! n)) →
  ∃ a, calculate_polygon_area L coords = Ok a ∧
       calculate_polygon_area (reverse L) coords = Ok (- a).
Proof.
  intros Hdef. eexists. split; [by apply calculate_polygon_area_exact|].
  by apply calculate_polygon_area_reverse.
Qed.

Lemma last_to_front_rotation {A} (l : list A) :
  last_to_front l = cyclic_rotation (-1) l.
Proof.
  unfold last_to_front, cyclic_rotation, rotate.
  destruct (decide (length l = 0%nat)) as [H0|Hne].
  - apply length_zero_iff_nil in H0 as ->. done.
  - assert (((-1) `mod` Z.of_nat (length l))%Z = (Z.of_nat (length l) - 1)%Z) as ->.
    { symmetry. apply (Z.mod_unique_pos _ _ (-1)); lia. }
    replace (Z.to_nat (Z.of_nat (length l) - 1)) with (length l - 1)%nat by lia.
    rewrite Nat.mod_small by lia. done.
Qed.

(** C10 (amended): when the shoelace sum is computed in exact
    arithmetic, the signed area of a node list is unchanged by a cyclic
    rotation by any integer number of positions, and so by the rotation
    [to_node_list] applies after reversing. *)
Theorem area_rotation_exact L coords (k : Z) :
  (∀ n, n ∈ L → is_Some (coords !! n)) →
  calculate_polygon_area (cyclic_rotation k L) coords =
    calculate_polygon_area L coords ∧
  calculate_polygon_area (last_to_front L) coords =
    calculate_polygon_area L coords.
Proof.
  intros Hdef. rewrite last_to_front_rotation. unfold cyclic_rotation.
  split; by apply calculate_polygon_area_rotate.
Qed.
End exact_area_thms.

Lemma area_reverse_exact_witness :
  ∃ a, calculate_polygon_area [0; 1; 2; 3]%Z square_coords = Ok a ∧
       calculate_polygon_area (reverse [0; 1; 2; 3]%Z) square_coords = Ok (- a)%Qc.
Proof. apply area_reverse_exact. solve_defined. Defined.

(** In binary64 arithmetic the two areas are not opposite: rounding
    depends on the order of the terms. *)
Lemma area_reverse_float_counterexample :
  ∃ a r, calculate_polygon_area [0; 1; 2; 3]%Z float_coords = Ok a ∧
         calculate_polygon_area (reverse [0; 1; 2; 3]%Z) float_coords = Ok r ∧
         PrimFloat.eqb r (- a)%float = false.
Proof. exists (-0.5)%float, 0%float. vm_compute. done. Qed.

(** In binary64 arithmetic a rotation changes the computed area. *)
Lemma area_rotation_float_counterexample :
  ∃ a r, calculate_polygon_area [0; 1; 2; 3]%Z float_coords = Ok a ∧
         calculate_polygon_area (cyclic_rotation 1 [0; 1; 2; 3]%Z) float_coords = Ok r ∧
         PrimFloat.eqb r a = false.
Proof. exists (-0.5)%float, 0%float. vm_compute. done. Qed.

(** ** Cycles and their edges *)

Section cycles.
Implicit Types (L l p : list Z) (e : Edge).

Lemma Frozen_pair_comm (a b : Z) : Frozen {[a; b]} = Frozen {[b; a]}.
Proof. f_equal. apply set_eq. set_solver. Qed.

Lemma path_edges_cons a b l :
  path_edges (a :: b :: l) = {[ Frozen {[a; b]} ]} ∪ path_edges (b :: l).
Proof. done. Qed.

Lemma path_edges_snoc l a b :
  path_edges (l ++ [a; b]) = path_edges (l ++ [a]) ∪ {[ Frozen {[a; b]} ]}.
Proof.
  induction l as [|x l IH]; [simpl; set_solver|].
  destruct l as [|y l]; [simpl; set_solver|].
  rewrite <- !app_comm_cons in *.
  rewrite !path_edges_cons, IH. set_solver.
Qed.

Lemma path_edges_reverse l : path_edges (reverse l) = path_edges l.
Proof.
  induction l as [|x l IH]; [done|].
  destruct l as [|y l]; [done|].
  rewrite path_edges_cons, reverse_cons.
  rewrite reverse_cons in IH |- *. rewrite <- app_assoc.
  change ([y] ++ [x]) with [y; x].
  rewrite path_edges_snoc, IH, (Frozen_pair_comm y x). set_solver.
Qed.

Lemma cycle_edges_rotate1 x l : cycle_edges (x :: l) = cycle_edges (l ++ [x]).
Proof.
  destruct l as [|y l]; [done|]. unfold cycle_edges. cbn [app].
  rewrite path_edges_cons, <- app_assoc. cbn [app].
  rewrite (app_comm_cons l [x; y] y), path_edges_snoc.
  rewrite <- app_comm_cons. set_solver.
Qed.

Lemma cycle_edges_app l1 l2 : cycle_edges (l1 ++ l2) = cycle_edges (l2 ++ l1).
Proof.
  revert l2. induction l1 as [|x l1 IH]; intros l2.
  - by rewrite app_nil_r.
  - rewrite <- app_comm_cons, cycle_edges_rotate1, <- app_assoc, IH.
    by rewrite <- app_assoc.
Qed.

Lemma cycle_edges_reverse L : cycle_edges (reverse L) = cycle_edges L.
Proof.
  destruct L as [|x l]; [done|].
  rewrite reverse_cons, <- cycle_edges_rotate1. unfold cycle_edges.
  rewrite <- (path_edges_reverse ((x :: l) ++ [x])). f_equal.
  by rewrite reverse_app, reverse_singleton, reverse_cons.
Qed.

(** The loop of [node_list_to_edges] from index [length l1] on. *)
Lemma node_list_to_edges_loop l1 l2 x acc :
  l1 ++ l2 = x :: drop 1 (l1 ++ l2) →
  foldl
    (λ edges i,
       match (l1 ++ l2) !! i, (l1 ++ l2) !! ((i + 1) `mod` length (l1 ++ l2)) with
       | Some a, Some b => edges ∪ {[ Frozen {[a; b]} ]}
       | _, _ => edges
       end)
    acc (seq (length l1) (length l2)) =
  acc ∪ path_edges (l2 ++ [x]).
Proof.
  revert l1 acc. induction l2 as [|a l2 IH]; intros l1 acc Hx.
  - simpl. set_solver.
  - cbn [length seq foldl].
    rewrite (lookup_app_r l1) by lia. rewrite Nat.sub_diag. cbn [lookup list_lookup].
    set (nxt := match l2 with [] => x | b :: _ => b end).
    assert ((l1 ++ a :: l2) !! ((length l1 + 1) `mod` length (l1 ++ a :: l2))
            = Some nxt) as ->.
    { unfold nxt. rewrite length_app. simpl.
      destruct l2 as [|b l2]; simpl.
      - rewrite Nat.Div0.mod_same. by rewrite Hx.
      - rewrite Nat.mod_small by lia. rewrite lookup_app_r by lia.
        by replace (length l1 + 1 - length l1)%nat with 1%nat by lia. }
    specialize (IH (l1 ++ [a]) (acc ∪ {[Frozen {[a; nxt]}]})).
    rewrite <- app_assoc in IH. cbn [app] in IH.
    replace (length (l1 ++ [a])) with (S (length l1)) in IH
      by (rewrite length_app; simpl; lia).
    rewrite IH by done.
    unfold nxt. destruct l2 as [|b l2]; simpl; set_solver.
Qed.

Lemma node_list_to_edges_cycle L : node_list_to_edges L true = cycle_edges L.
Proof.
  unfold node_list_to_edges.
  replace (Z.to_nat (Z.of_nat (length L) + 0)) with (length L) by lia.
  destruct L as [|x l]; [done|].
  pose proof (node_list_to_edges_loop [] (x :: l) x ∅ eq_refl) as H.
  cbn [app] in H. cbn [length] in *. rewrite H. unfold cycle_edges.
  cbn [app]. set_solver.
Qed.
End cycles.

(** ** The walk of [to_node_list] *)

Section walk_facts.
Implicit Types (L l p : list Z) (e : Edge) (E : gset Edge) (X : gset Z).

Lemma foldl_min_spec x xs :
  foldl Z.min x xs ∈ x :: xs ∧ ∀ y, y ∈ x :: xs → (foldl Z.min x xs ≤ y)%Z.
Proof.
  revert x. induction xs as [|z xs IH]; intros x; simpl.
  - split; [by left|]. intros y ->%list_elem_of_singleton. lia.
  - destruct (IH (Z.min x z)) as [Hin Hle]. split.
    + apply elem_of_cons in Hin as [Heq|Hin].
      * rewrite Heq. destruct (Z.min_spec x z) as [[_ ->]|[_ ->]];
          [by left | right; by left].
      * by do 2 right.
    + intros y Hy.
      assert (Z.min x z ≤ y ∨ y ∈ xs)%Z as [?|?].
      { apply elem_of_cons in Hy as [->|Hy]; [left; lia|].
        apply elem_of_cons in Hy as [->|Hy]; [left; lia|by right]. }
      * etrans; [apply Hle; by left|done].
      * apply Hle. by right.
Qed.

Lemma py_min_spec X m :
  py_min X = Ok m ↔ m ∈ X ∧ ∀ y, y ∈ X → (m ≤ y)%Z.
Proof.
  unfold py_min. destruct (elements X) as [|x xs] eqn:Hel.
  - apply elements_empty_inv, leibniz_equiv in Hel. subst. split; [done|].
    intros [H _]. set_solver.
  - destruct (foldl_min_spec x xs) as [Hin Hle].
    assert (Hiff : ∀ y, y ∈ X ↔ y ∈ x :: xs).
    { intros y. by rewrite <- Hel, elem_of_elements. }
    split.
    + intros [= <-]. split; [by apply Hiff|]. intros y Hy. by apply Hle, Hiff.
    + intros [Hm Hmin]. f_equal. apply Z.le_antisymm.
      * by apply Hle, Hiff.
      * by apply Hmin, Hiff.
Qed.

Lemma elem_of_connected_to E v y :
  y ∈ connected_to E v ↔ ∃ e, e ∈ E ∧ v ∈ edge_nodes e ∧ y ∈ edge_nodes e.
Proof.
  unfold connected_to.
  assert (Hgen : ∀ es acc,
    y ∈ foldl (λ c e, if bool_decide (v ∈ edge_nodes e) then c ∪ edge_nodes e else c)
          acc es ↔
    y ∈ acc ∨ ∃ e, e ∈ es ∧ v ∈ edge_nodes e ∧ y ∈ edge_nodes e).
  { induction es as [|e es IH]; intros acc; simpl.
    - split; [by left|]. intros [?|(e & He & _)]; [done|]. by apply elem_of_nil in He.
    - rewrite IH. case_bool_decide as Hv.
      + rewrite elem_of_union. split.
        * intros [[?|?]|(e' & ? & ? & ?)]; [by left|right..].
          -- exists e. split; [by left|done].
          -- exists e'. split; [by right|done].
        * intros [?|(e' & [->|?]%elem_of_cons & ? & ?)];
            [by left; left|by left; right|right; by exists e'].
      + split.
        * intros [?|(e' & ? & ? & ?)]; [by left|right].
          exists e'. split; [by right|done].
        * intros [?|(e' & [->|?]%elem_of_cons & ? & ?)];
            [by left|done|right; by exists e']. }
  rewrite Hgen. setoid_rewrite elem_of_elements. set_solver.
Qed.

Lemma elem_of_path_edges p e :
  e ∈ path_edges p ↔
  ∃ i a b, p !! i = Some a ∧ p !! S i = Some b ∧ e = Frozen {[a; b]}.
Proof.
  induction p as [|x p IH]; [simpl; split; [set_solver|by intros (?&?&?&?&?)]|].
  destruct p as [|y p].
  - simpl. split; [set_solver|]. intros (i&a&b&_&H&_). by destruct i.
  - rewrite path_edges_cons, elem_of_union, elem_of_singleton, IH. split.
    + intros [->|(i&a&b&?&?&?)]; [by exists 0%nat, x, y|by exists (S i), a, b].
    + intros (i&a&b&Ha&Hb&He). destruct i as [|i].
      * left. simpl in *. by simplify_eq.
      * right. by exists i, a, b.
Qed.

Lemma path_edges_nodes p e v : e ∈ path_edges p → v ∈ edge_nodes e → v ∈ p.
Proof.
  intros (i&a&b&Ha&Hb&->)%elem_of_path_edges. simpl.
  intros [->%elem_of_singleton| ->%elem_of_singleton]%elem_of_union;
    by eapply list_elem_of_lookup_2.
Qed.

Lemma Frozen_pair_inj (a b c d : Z) :
  Frozen {[a; b]} = Frozen {[c; d]} → (a = c ∧ b = d) ∨ (a = d ∧ b = c).
Proof.
  intros Heq%(f_equal edge_nodes). simpl in Heq.
  assert (a ∈ ({[c; d]} : gset Z)) as Ha by (rewrite <- Heq; set_solver).
  assert (b ∈ ({[c; d]} : gset Z)) as Hb by (rewrite <- Heq; set_solver).
  assert (c ∈ ({[a; b]} : gset Z)) as Hc by (rewrite Heq; set_solver).
  assert (d ∈ ({[a; b]} : gset Z)) as Hd by (rewrite Heq; set_solver).
  set_unfold. naive_solver.
Qed.

Lemma size_path_edges p : NoDup p → size (path_edges p) = (length p - 1)%nat.
Proof.
  induction p as [|x p IH]; [done|]. intros [Hx Hp]%NoDup_cons.
  destruct p as [|y p]; [done|].
  rewrite path_edges_cons, size_union, size_singleton, IH; [simpl; lia|done|].
  apply disjoint_singleton_l. intros He. apply Hx.
  eapply path_edges_nodes; [done|]. simpl. set_solver.
Qed.

Lemma size_cycle_edges L :
  NoDup L → (3 ≤ length L)%nat → size (cycle_edges L) = length L.
Proof.
  intros Hnd Hlen. destruct L as [|m l]; [simpl in *; lia|].
  apply NoDup_cons in Hnd as [Hm Hl].
  destruct l as [|a l]; [simpl in *; lia|].
  unfold cycle_edges. cbn [app]. rewrite path_edges_cons.
  assert (NoDup ((a :: l) ++ [m])) as Hnd'.
  { apply NoDup_app. split_and!; [done| |apply NoDup_singleton].
    intros y Hy ->%list_elem_of_singleton. done. }
  rewrite size_union, size_singleton.
  - cbn [app] in Hnd'. rewrite size_path_edges by done.
    simpl. rewrite length_app. simpl. lia.
  - apply disjoint_singleton_l.
    intros (i & x & y & Hi & HSi & Hxy)%elem_of_path_edges.
    cbn [app] in Hnd'.
    assert (H0 : (a :: l ++ [m]) !! 0%nat = Some a) by done.
    assert (Hend : (a :: l ++ [m]) !! S (length l) = Some m).
    { simpl. rewrite lookup_app_r by lia. by rewrite Nat.sub_diag. }
    apply Frozen_pair_inj in Hxy as [[<- <-]|[<- <-]].
    + by pose proof (NoDup_lookup _ _ _ _ Hnd' HSi H0).
    + pose proof (NoDup_lookup _ _ _ _ Hnd' Hi H0) as ->.
      pose proof (NoDup_lookup _ _ _ _ Hnd' HSi Hend) as Hlast.
      simpl in Hlen. lia.
Qed.
End walk_facts.

Section walk_cycle.
Context {T : Type} `{!Number T}.
Implicit Types (L l p : list Z) (e : Edge) (E : gset Edge) (X : gset Z).

Lemma nodes_cycle_edges L (c : option (gmap Z (Coord T))) :
  nodes (mkShape (cycle_edges L) c) = list_to_set L.
Proof.
  apply set_eq. intros v. rewrite elem_of_nodes, elem_of_list_to_set. simpl.
  destruct L as [|m l].
  { simpl. split.
    - intros (e & He & _). by apply not_elem_of_empty in He.
    - intros Hv. by apply elem_of_nil in Hv. }
  unfold cycle_edges. split.
  - intros (e & He & Hv).
    pose proof (path_edges_nodes _ _ _ He Hv) as Hin.
    apply elem_of_app in Hin as [?| ->%list_elem_of_singleton]; [done|by left].
  - intros (i & Hi)%list_elem_of_lookup.
    assert (is_Some (((m :: l) ++ [m]) !! S i)) as [b Hb].
    { apply lookup_lt_is_Some. apply lookup_lt_Some in Hi.
      rewrite length_app. simpl in *. lia. }
    exists (Frozen {[v; b]}). split; [|simpl; set_solver].
    apply elem_of_path_edges. exists i, v, b. split_and!; [|done..].
    by apply lookup_app_l_Some.
Qed.

(** One iteration of the loop on a simple cycle: from [u] the smallest
    unseen neighbour is the next node of the cycle. *)
Lemma cycle_step l0 u w l2 :
  NoDup (l0 ++ u :: w :: l2) →
  (l0 = [] → ∀ z, last (u :: w :: l2) = Some z → (w ≤ z)%Z) →
  py_min (connected_to (cycle_edges (l0 ++ u :: w :: l2)) u
            ∖ list_to_set (l0 ++ [u])) = Ok w.
Proof.
  intros Hnd Hfirst. set (L := l0 ++ u :: w :: l2) in *.
  assert (Hu : L !! length l0 = Some u).
  { unfold L. rewrite lookup_app_r by lia. by rewrite Nat.sub_diag. }
  assert (Hw : L !! S (length l0) = Some w).
  { unfold L. rewrite lookup_app_r by lia.
    by replace (S (length l0) - length l0)%nat with 1%nat by lia. }
  assert (∃ m l, L = m :: l) as (m & l & HL).
  { unfold L. destruct l0; simpl; eauto. }
  assert (Hcyc : cycle_edges L = path_edges (L ++ [m])).
  { rewrite HL. done. }
  assert (Hp : ∀ i x, (i < length L)%nat → (L ++ [m]) !! i = Some x → L !! i = Some x).
  { intros i x Hi. by rewrite lookup_app_l. }
  assert (Hpn : ∀ i x, (L ++ [m]) !! i = Some x → ¬ (i < length L)%nat →
                       i = length L ∧ x = m).
  { intros i x Hx Hi. apply lookup_app_Some in Hx as [Hx|[_ Hx]].
    - apply lookup_lt_Some in Hx. lia.
    - apply list_lookup_singleton_Some in Hx as [? ->]. split; [lia|done]. }
  assert (Hseen : ∀ y, y ∈ (list_to_set (l0 ++ [u]) : gset Z) ↔ y ∈ l0 ∨ y = u).
  { intros y. rewrite elem_of_list_to_set, elem_of_app, list_elem_of_singleton. done. }
  apply py_min_spec. split.
  - apply elem_of_difference. split.
    + apply elem_of_connected_to. exists (Frozen {[u; w]}).
      split; [|simpl; set_solver]. rewrite Hcyc.
      apply elem_of_path_edges. exists (length l0), u, w.
      split_and!; [by apply lookup_app_l_Some..|done].
    + rewrite Hseen. intros Hin.
      assert (w ∈ l0 ++ [u]) as (j & Hj)%list_elem_of_lookup.
      { rewrite elem_of_app, list_elem_of_singleton. done. }
      pose proof (lookup_lt_Some _ _ _ Hj) as Hjlt.
      rewrite length_app in Hjlt. simpl in Hjlt.
      assert (L !! j = Some w) as Hj'.
      { unfold L. rewrite (app_assoc l0 [u] (w :: l2)  : l0 ++ u :: w :: l2 = _).
        by apply lookup_app_l_Some. }
      pose proof (NoDup_lookup _ _ _ _ Hnd Hj' Hw). lia.
  - intros y [Hy Hunseen]%elem_of_difference.
    rewrite Hseen in Hunseen.
    apply elem_of_connected_to in Hy as (e & He & Hue & Hye).
    rewrite Hcyc in He.
    apply elem_of_path_edges in He as (i & a & b & Hi & HSi & ->).
    simpl in Hue, Hye.
    assert (Hilt : (i < length L)%nat).
    { apply lookup_lt_Some in HSi. rewrite length_app in HSi. simpl in HSi. lia. }
    apply Hp in Hi; [|done].
    assert ((u = a ∧ y = b) ∨ (u = b ∧ y = a)) as [[<- <-]|[<- <-]].
    { set_unfold. naive_solver. }
    + pose proof (NoDup_lookup _ _ _ _ Hnd Hi Hu) as ->.
      rewrite (lookup_app_l L) in HSi by (apply lookup_lt_Some in Hw; lia).
      rewrite Hw in HSi. injection HSi as ->. lia.
    + destruct (decide (S i < length L)%nat) as [HSlt|Hge].
      * apply Hp in HSi; [|done].
        pose proof (NoDup_lookup _ _ _ _ Hnd HSi Hu) as Heq.
        exfalso. apply Hunseen. left.
        apply list_elem_of_lookup. exists i.
        unfold L in Hi. rewrite lookup_app_l in Hi by lia. done.
      * apply Hpn in HSi as [HSi ->]; [|done].
        assert (L !! 0%nat = Some m) as H0 by (by rewrite HL).
        pose proof (NoDup_lookup _ _ _ _ Hnd H0 Hu) as Hl0.
        symmetry in Hl0. apply length_zero_iff_nil in Hl0.
        apply Hfirst; [done|].
        subst l0. simpl in L. rewrite last_lookup.
        replace (Init.Nat.pred (length (m :: w :: l2))) with i; [done|].
        unfold L in HSi. simpl in *. lia.
Qed.
End walk_cycle.

Section to_node_list_cycle.
Context {T : Type} `{!Number T}.
Implicit Types (L l : list Z) (c : option (gmap Z (Coord T))).

(** The counter of [to_node_list_loop] is never what stops the loop:
    with at least [len(edges) - len(node_list)] iterations allowed it
    behaves as the [while] loop does. *)
Lemma to_node_list_loop_unfold E fuel node_list seen :
  (size E - length node_list ≤ fuel)%nat →
  to_node_list_loop E fuel node_list seen =
    if bool_decide (length node_list < size E)%nat then
      last_node ← list_get node_list (length node_list - 1);
      next_node ← py_min (connected_to E last_node ∖ seen);
      to_node_list_loop E (fuel - 1) (node_list ++ [next_node])
        (list_to_set (node_list ++ [next_node]))
    else Ok node_list.
Proof.
  intros Hfuel. destruct fuel as [|fuel]; simpl.
  - case_bool_decide; [lia|done].
  - by rewrite Nat.sub_0_r.
Qed.

Lemma to_node_list_loop_fuel E fuel fuel' node_list seen :
  (size E - length node_list ≤ fuel)%nat →
  (size E - length node_list ≤ fuel')%nat →
  to_node_list_loop E fuel node_list seen =
    to_node_list_loop E fuel' node_list seen.
Proof.
  revert fuel' node_list seen.
  induction fuel as [|fuel IH]; intros fuel' node_list seen Hf Hf'.
  - rewrite (to_node_list_loop_unfold E fuel') by done. simpl.
    rewrite bool_decide_eq_false_2 by lia. done.
  - rewrite (to_node_list_loop_unfold E fuel') by done. simpl.
    case_bool_decide as Hlt; [|done].
    destruct (list_get _ _) as [u|]; [|done]. cbn [mbind result_bind].
    destruct (py_min _) as [w|]; [|done]. cbn [mbind result_bind].
    apply IH; rewrite length_app; simpl; lia.
Qed.

Lemma loop_follows_cycle L :
  NoDup L → (3 ≤ length L)%nat →
  (∀ m w l z, L = m :: w :: l → last L = Some z → (w ≤ z)%Z) →
  ∀ l2 l0 u fuel,
    L = l0 ++ u :: l2 → (length l2 ≤ fuel)%nat →
    to_node_list_loop (cycle_edges L) fuel (l0 ++ [u]) (list_to_set (l0 ++ [u]))
    = Ok L.
Proof.
  intros Hnd Hlen Hfirst.
  pose proof (size_cycle_edges L Hnd Hlen) as Hsize.
  induction l2 as [|w l2 IH]; intros l0 u fuel HL Hfuel.
  - rewrite to_node_list_loop_unfold.
    + rewrite bool_decide_eq_false_2; [by rewrite HL|].
      rewrite Hsize, HL. lia.
    + rewrite Hsize, HL. lia.
  - rewrite to_node_list_loop_unfold.
    2:{ rewrite Hsize, HL, !length_app. simpl in *. lia. }
    rewrite bool_decide_eq_true_2.
    2:{ rewrite Hsize, HL, !length_app. simpl. lia. }
    assert (list_get (l0 ++ [u]) (length (l0 ++ [u]) - 1) = Ok u) as ->.
    { apply list_get_Some. rewrite length_app. simpl.
      rewrite lookup_app_r by lia.
      by replace (length l0 + 1 - 1 - length l0)%nat with 0%nat by lia. }
    cbn [mbind result_bind].
    assert (py_min (connected_to (cycle_edges L) u ∖ list_to_set (l0 ++ [u]))
            = Ok w) as ->.
    { rewrite HL. apply cycle_step; [by rewrite <- HL|].
      intros -> z Hz. eapply Hfirst; [done|]. by rewrite HL. }
    cbn [mbind result_bind].
    apply IH; [|simpl in Hfuel; lia].
    by rewrite <- app_assoc.
Qed.

Lemma walk_cycle m w l z c :
  NoDup (m :: w :: l) → (1 ≤ length l)%nat →
  (∀ y, y ∈ m :: w :: l → (m ≤ y)%Z) →
  last (m :: w :: l) = Some z → (w ≤ z)%Z →
  walk (mkShape (cycle_edges (m :: w :: l)) c) = Ok (m :: w :: l).
Proof.
  intros Hnd Hlen Hmin Hlast Hwz. unfold walk.
  rewrite nodes_cycle_edges.
  assert (py_min (list_to_set (m :: w :: l)) = Ok m) as ->.
  { apply py_min_spec. split; [set_solver|].
    intros y Hy. apply Hmin. by apply elem_of_list_to_set in Hy. }
  cbn [mbind result_bind edges].
  assert (({[m]} : gset Z) = list_to_set ([] ++ [m])) as ->.
  { simpl. by rewrite union_empty_r_L. }
  change [m] with ([] ++ [m]).
  apply (loop_follows_cycle (m :: w :: l)) with (l2 := w :: l);
    [done|simpl; lia| |done|].
  - intros m' w' l' z' [= <- <- <-] Hz'. congruence.
  - rewrite size_cycle_edges; [simpl; lia|done|simpl; lia].
Qed.
End to_node_list_cycle.

Section canonical.
Implicit Types (L l : list Z).

Lemma rotate_app_length {A} (l1 l2 : list A) :
  rotate (length l1) (l1 ++ l2) = l2 ++ l1.
Proof.
  unfold rotate. rewrite length_app.
  destruct l2 as [|x l2].
  - rewrite app_nil_r. simpl. rewrite Nat.add_0_r, Nat.Div0.mod_same.
    simpl. by rewrite app_nil_r.
  - rewrite Nat.mod_small by (simpl; lia).
    by rewrite drop_app_length, take_app_length.
Qed.

Lemma snoc_inv {A} (xs : list A) : xs ≠ [] → ∃ (ys : list A) x, xs = ys ++ [x].
Proof.
  induction xs as [|x xs IH] using rev_ind; [done|]. intros _. by exists xs, x.
Qed.

Lemma list_min_exists L :
  L ≠ [] → ∃ m, m ∈ L ∧ ∀ y, y ∈ L → (m ≤ y)%Z.
Proof.
  destruct L as [|x xs]; [done|]. intros _.
  exists (foldl Z.min x xs). apply foldl_min_spec.
Qed.

(** Every simple cycle has a canonical presentation: the minimum first,
    then the smaller of its two neighbours. *)
Lemma canonical_cycle L :
  NoDup L → (3 ≤ length L)%nat →
  ∃ m w l z,
    m :: w :: l ≡ₚ L ∧ (1 ≤ length l)%nat ∧
    (∀ y, y ∈ m :: w :: l → (m ≤ y)%Z) ∧
    last (m :: w :: l) = Some z ∧ (w ≤ z)%Z ∧
    cycle_edges (m :: w :: l) = cycle_edges L ∧
    ((∃ k, m :: w :: l = rotate k L) ∨
     (∃ k, m :: w :: l = rotate k (reverse L))).
Proof.
  intros Hnd Hlen.
  destruct (list_min_exists L) as (m & Hm & Hmin); [intros ->; simpl in Hlen; lia|].
  apply list_elem_of_split in Hm as (l1 & l2 & HL).
  assert (Hperm : m :: l2 ++ l1 ≡ₚ L).
  { rewrite HL. by rewrite (app_comm_cons l2 l1 m), Permutation_app_comm. }
  assert (Hlen' : (2 ≤ length (l2 ++ l1))%nat).
  { rewrite HL, length_app in Hlen. rewrite length_app. simpl in Hlen. lia. }
  destruct (l2 ++ l1) as [|a r] eqn:Hr; [simpl in Hlen'; lia|].
  destruct (snoc_inv r) as (mid & z & ->); [destruct r; simpl in *; [lia|done]|].
  destruct (decide (a ≤ z)%Z) as [Haz|Haz].
  - exists m, a, (mid ++ [z]), z. split_and!.
    + done.
    + rewrite length_app. simpl. lia.
    + intros y Hy. apply Hmin. by rewrite <- Hperm.
    + by rewrite !app_comm_cons, last_snoc.
    + done.
    + rewrite <- Hr, HL, (app_comm_cons l2 l1 m). apply cycle_edges_app.
    + left. exists (length l1).
      by rewrite <- Hr, HL, (app_comm_cons l2 l1 m), rotate_app_length.
  - assert (Hrev : m :: z :: reverse mid ++ [a] = (m :: reverse l1) ++ reverse l2).
    { cbn [app]. f_equal. rewrite <- reverse_app, Hr.
      by rewrite reverse_cons, reverse_app, reverse_singleton. }
    assert (HrevL : reverse L = reverse l2 ++ (m :: reverse l1)).
    { rewrite HL, reverse_app, reverse_cons, <- app_assoc. done. }
    exists m, z, (reverse mid ++ [a]), a. split_and!.
    + rewrite Hrev. cbn [app]. by rewrite <- reverse_app, reverse_Permutation, Hr.
    + rewrite length_app. simpl. lia.
    + intros y Hy. apply Hmin. rewrite <- Hperm.
      rewrite Hrev in Hy. cbn [app] in Hy. rewrite <- reverse_app in Hy.
      apply elem_of_cons in Hy as [->|Hy]; [by left|].
      right. rewrite <- Hr. by rewrite elem_of_reverse in Hy.
    + by rewrite !app_comm_cons, last_snoc.
    + lia.
    + rewrite Hrev, cycle_edges_app, <- HrevL. apply cycle_edges_reverse.
    + right. exists (length (reverse l2)).
      by rewrite Hrev, HrevL, rotate_app_length.
Qed.
End canonical.

Section node_list_round_trip.
Context {T : Type} `{!Number T}.

(** C8: for a list L of at least three distinct nodes, the node list of
    the abstract shape over [node_list_to_edges(L)] is a rotation of L
    or a rotation of the reversal of L. *)
Theorem to_node_list_of_node_list_to_edges (L : list Z) :
  NoDup L → (3 ≤ length L)%nat →
  ∃ L', to_node_list (mkShape (T:=T) (node_list_to_edges L true) None) = Ok L' ∧
        ((∃ k, L' = rotate k L) ∨ (∃ k, L' = rotate k (reverse L))).
Proof.
  intros Hnd Hlen.
  destruct (canonical_cycle L Hnd Hlen)
    as (m & w & l & z & Hperm & Hl & Hmin & Hlast & Hwz & Hedges & Hrot).
  exists (m :: w :: l). split; [|done].
  unfold to_node_list. rewrite node_list_to_edges_cycle, <- Hedges.
  rewrite (walk_cycle m w l z); [done| |done..]. by rewrite Hperm.
Qed.
End node_list_round_trip.

(** ** Edge sets with the same links *)

Section same_links_facts.
Context {T : Type} `{!Number T}.
Implicit Types (L l : list Z) (E : gset Edge) (c : option (gmap Z (Coord T))).

Lemma same_links_iff E E' :
  same_links E E' →
  ∀ X : gset Z,
    (∃ e, e ∈ E ∧ edge_nodes e = X) ↔ (∃ e, e ∈ E' ∧ edge_nodes e = X).
Proof.
  intros [_ Hmap] X.
  assert (Himg : ∀ F : gset Edge,
    (∃ e, e ∈ F ∧ edge_nodes e = X) ↔ X ∈ (set_map edge_nodes F : gset (gset Z))).
  { intros F. rewrite elem_of_map. naive_solver. }
  by rewrite !Himg, Hmap.
Qed.

Lemma same_links_linked E E' u y : same_links E E' → linked E u y ↔ linked E' u y.
Proof.
  intros Hsl. pose proof (same_links_iff _ _ Hsl) as Hl. unfold linked. split.
  - intros (e & He & Hu & Hy).
    destruct (proj1 (Hl (edge_nodes e))) as (e' & He' & Heq); [by eauto|].
    exists e'. by rewrite Heq.
  - intros (e & He & Hu & Hy).
    destruct (proj2 (Hl (edge_nodes e))) as (e' & He' & Heq); [by eauto|].
    exists e'. by rewrite Heq.
Qed.

Lemma connected_to_same_links E E' u :
  same_links E E' → connected_to E u = connected_to E' u.
Proof.
  intros Hl. apply set_eq. intros y. rewrite !elem_of_connected_to.
  by apply same_links_linked.
Qed.

Lemma nodes_same_links E E' c c' :
  same_links E E' → nodes (mkShape E c) = nodes (mkShape (T:=T) E' c').
Proof.
  intros Hsl. pose proof (same_links_iff _ _ Hsl) as Hl. apply set_eq. intros v.
  rewrite !elem_of_nodes. simpl. split.
  - intros (e & He & Hv).
    destruct (proj1 (Hl (edge_nodes e))) as (e' & He' & Heq); [by eauto|].
    exists e'. by rewrite Heq.
  - intros (e & He & Hv).
    destruct (proj2 (Hl (edge_nodes e))) as (e' & He' & Heq); [by eauto|].
    exists e'. by rewrite Heq.
Qed.

Lemma to_node_list_loop_same_links E E' fuel node_list seen :
  same_links E E' →
  to_node_list_loop E fuel node_list seen =
    to_node_list_loop E' fuel node_list seen.
Proof.
  intros Hl. revert node_list seen.
  induction fuel as [|fuel IH]; intros node_list seen; [done|]. simpl.
  rewrite (proj1 Hl). case_bool_decide; [|done].
  destruct (list_get node_list (length node_list - 1)) as [u|]; [|done].
  cbn [mbind result_bind]. rewrite (connected_to_same_links E E') by done.
  destruct (py_min _) as [w|]; [|done]. cbn [mbind result_bind]. apply IH.
Qed.

Lemma walk_same_links E E' c c' :
  same_links E E' → walk (mkShape E c) = walk (mkShape (T:=T) E' c').
Proof.
  intros Hl. unfold walk. rewrite (nodes_same_links E E' c c') by done.
  destruct (py_min _) as [m|]; [|done]. cbn [mbind result_bind edges].
  rewrite (proj1 Hl). by apply to_node_list_loop_same_links.
Qed.
End same_links_facts.

(** ** The node list of a simple ring *)

Section simple_ring_walk.
Context {T : Type} `{!Number T}.
Implicit Types (L l : list Z) (E : gset Edge).

Lemma area_loop_total L (coords : gmap Z (Coord T)) items acc :
  (∀ n, n ∈ L → is_Some (coords !! n)) →
  (∀ i n, (i, n) ∈ items → n ∈ L) →
  ∃ a, area_loop L coords items acc = Ok a.
Proof.
  intros Hdef. revert acc. induction items as [|[i n] items IH]; intros acc Hitems.
  - by eexists.
  - simpl. assert (Hn : n ∈ L) by (eapply Hitems; by left).
    destruct (Hdef n Hn) as [p Hp]. rewrite (dict_get_Some _ _ _ Hp).
    cbn [mbind result_bind].
    assert (is_Some (L !! ((i + 1) `mod` length L)%nat)) as [x Hx].
    { apply lookup_lt_is_Some, Nat.mod_upper_bound.
      destruct L; [by apply elem_of_nil in Hn|done]. }
    rewrite (list_get_Some _ _ _ Hx). cbn [mbind result_bind].
    destruct (Hdef x) as [q Hq]; [by eapply list_elem_of_lookup_2|].
    rewrite (dict_get_Some _ _ _ Hq). cbn [mbind result_bind].
    apply IH. intros j y Hj. eapply Hitems. by right.
Qed.

Lemma calculate_polygon_area_total L (coords : gmap Z (Coord T)) :
  (∀ n, n ∈ L → is_Some (coords !! n)) →
  ∃ a, calculate_polygon_area L coords = Ok a.
Proof.
  intros Hdef. unfold calculate_polygon_area.
  destruct (area_loop_total L coords (enumerate L) num_zero Hdef) as [a ->].
  - intros i n (j & y & [= -> ->] & Hj)%elem_of_lookup_imap_1.
    by eapply list_elem_of_lookup_2.
  - by eexists.
Qed.

Lemma last_to_front_reverse_cons {A} (x : A) (xs : list A) :
  last_to_front (reverse (x :: xs)) = x :: reverse xs.
Proof.
  unfold last_to_front. rewrite reverse_cons, length_app. simpl.
  replace (length (reverse xs) + 1 - 1)%nat with (length (reverse xs)) by lia.
  by rewrite drop_app_length, take_app_length.
Qed.

Lemma greedy_cycle m w l z :
  NoDup (m :: w :: l) → last (m :: w :: l) = Some z → (w ≤ z)%Z →
  ∀ i u v,
    (m :: w :: l) !! i = Some u → (m :: w :: l) !! S i = Some v →
    py_min (connected_to (cycle_edges (m :: w :: l)) u
              ∖ list_to_set (take (S i) (m :: w :: l))) = Ok v.
Proof.
  intros Hnd Hlast Hwz i u v Hu Hv. set (L := m :: w :: l) in *.
  assert (HL : L = take i L ++ u :: v :: drop (S (S i)) L).
  { rewrite <- (take_drop_middle L i u Hu) at 1. do 2 f_equal.
    by apply drop_S. }
  assert (Htake : take (S i) L = take i L ++ [u]).
  { by apply take_S_r. }
  rewrite Htake. rewrite HL at 1. apply cycle_step; [by rewrite <- HL|].
  intros Hnil z' Hz'.
  assert (i = 0%nat) as ->.
  { apply lookup_lt_Some in Hu.
    destruct i; [done|]. unfold L in Hnil. simpl in Hnil. done. }
  unfold L in *. simpl in Hu, Hv. change (drop 2 (m :: w :: l)) with l in Hz'.
  injection Hu as <-. injection Hv as <-. congruence.
Qed.
End simple_ring_walk.

Section simple_ring_to_node_list.
Implicit Types (L l : list Z) (E : gset Edge).

(** The walk over a simple ring returns its canonical presentation. *)
Lemma walk_simple_ring {T} `{!Number T} E L (c : option (gmap Z (Coord T))) :
  simple_ring E L →
  ∃ m w l z,
    walk (mkShape E c) = Ok (m :: w :: l) ∧
    m :: w :: l ≡ₚ L ∧ (1 ≤ length l)%nat ∧
    (∀ y, y ∈ L → (m ≤ y)%Z) ∧
    last (m :: w :: l) = Some z ∧ (w ≤ z)%Z ∧
    cycle_edges (m :: w :: l) = cycle_edges L.
Proof.
  intros (Hnd & Hlen & Hlinks).
  destruct (canonical_cycle L Hnd Hlen)
    as (m & w & l & z & Hperm & Hl & Hmin & Hlast & Hwz & Hedges & _).
  exists m, w, l, z. split_and!; try done.
  - rewrite (walk_same_links E (cycle_edges L) c c) by done.
    rewrite <- Hedges. apply (walk_cycle m w l z); try done. by rewrite Hperm.
  - intros y Hy. apply Hmin. by rewrite Hperm.
Qed.

Lemma nodes_simple_ring {T} `{!Number T} E L (c : option (gmap Z (Coord T))) :
  simple_ring E L → nodes (mkShape E c) = list_to_set L.
Proof.
  intros (_ & _ & Hlinks).
  by rewrite (nodes_same_links E (cycle_edges L) c c), nodes_cycle_edges.
Qed.

Lemma simple_ring_canonical E L L' :
  simple_ring E L → L' ≡ₚ L → cycle_edges L' = cycle_edges L →
  simple_ring E L'.
Proof.
  intros (Hnd & Hlen & Hlinks) Hperm Hedges. split_and!.
  - by rewrite Hperm.
  - by rewrite Hperm.
  - by rewrite Hedges.
Qed.

Lemma cycle_edges_reversed_front m l :
  cycle_edges (m :: reverse l) = cycle_edges (m :: l).
Proof.
  by rewrite cycle_edges_rotate1, <- reverse_cons, cycle_edges_reverse.
Qed.

Lemma to_node_list_abstract_ring {T} `{!Number T} E L :
  simple_ring E L →
  ∃ L', to_node_list (mkShape (T:=T) E None) = Ok L' ∧
        simple_ring E L' ∧
        (∃ m, head L' = Some m ∧ m ∈ nodes (mkShape (T:=T) E None) ∧
              ∀ y, y ∈ nodes (mkShape (T:=T) E None) → (m ≤ y)%Z) ∧
        (∀ i u w, L' !! i = Some u → L' !! S i = Some w →
           linked E u w ∧ (w ∉ take (S i) L') ∧
           ∀ y, linked E u y → y ∉ take (S i) L' → (w ≤ y)%Z).
Proof.
  intros Hring.
  destruct (walk_simple_ring E L None Hring)
    as (m & w & l & z & Hwalk & Hperm & Hl & Hmin & Hlast & Hwz & Hedges).
  pose proof (simple_ring_canonical E L _ Hring Hperm Hedges) as Hring'.
  exists (m :: w :: l). split_and!.
  - unfold to_node_list. by rewrite Hwalk.
  - done.
  - exists m. rewrite (nodes_simple_ring E L None Hring).
    setoid_rewrite elem_of_list_to_set.
    split_and!; [done| |done]. rewrite <- Hperm. by left.
  - intros i u v Hu Hv.
    pose proof (greedy_cycle m w l z (proj1 Hring') Hlast Hwz i u v Hu Hv) as Hstep.
    rewrite <- (connected_to_same_links E) in Hstep by apply Hring'.
    apply py_min_spec in Hstep as [Hin Hleast].
    apply elem_of_difference in Hin as [Hlink Hnew].
    rewrite elem_of_list_to_set in Hnew.
    split_and!; [by apply elem_of_connected_to|done|].
    intros y Hy Hynew. apply Hleast, elem_of_difference.
    split; [by apply elem_of_connected_to|by rewrite elem_of_list_to_set].
Qed.

Lemma to_node_list_coords_ring {T} `{!Number T} E L (coords : gmap Z (Coord T)) :
  simple_ring E L →
  (∀ n, n ∈ L → is_Some (coords !! n)) →
  ∃ L', to_node_list (mkShape E (Some coords)) = Ok L' ∧
        simple_ring E L' ∧
        (∃ m, head L' = Some m ∧ m ∈ nodes (mkShape E (Some coords)) ∧
              ∀ y, y ∈ nodes (mkShape E (Some coords)) → (m ≤ y)%Z).
Proof.
  intros Hring Hdef.
  destruct (walk_simple_ring E L (Some coords) Hring)
    as (m & w & l & z & Hwalk & Hperm & Hl & Hmin & Hlast & Hwz & Hedges).
  pose proof (simple_ring_canonical E L _ Hring Hperm Hedges) as Hring'.
  assert (Hm : m ∈ L) by (rewrite <- Hperm; by left).
  assert (Hfirst : m ∈ nodes (mkShape E (Some coords)) ∧
                   ∀ y, y ∈ nodes (mkShape E (Some coords)) → (m ≤ y)%Z).
  { rewrite (nodes_simple_ring E L (Some coords) Hring).
    by setoid_rewrite elem_of_list_to_set. }
  destruct (calculate_polygon_area_total (m :: w :: l) coords) as [a Ha].
  { intros n Hn. apply Hdef. by rewrite <- Hperm. }
  unfold to_node_list. rewrite Hwalk. cbn [mbind result_bind coords_dict].
  rewrite Ha. cbn [mbind result_bind].
  destruct (num_ltb a num_zero).
  - rewrite last_to_front_reverse_cons. eexists. split_and!; [done| |by exists m].
    apply (simple_ring_canonical E L); [done| |].
    + by rewrite reverse_Permutation.
    + by rewrite cycle_edges_reversed_front.
  - eexists. split_and!; [done|done|by exists m].
Qed.

Lemma to_node_list_exact_area E L (coords : gmap Z (Coord Qc)) :
  simple_ring E L →
  (∀ n, n ∈ L → is_Some (coords !! n)) →
  ∃ L' a, to_node_list (mkShape E (Some coords)) = Ok L' ∧
          calculate_polygon_area L' coords = Ok a ∧ (0 ≤ a)%Qc.
Proof.
  intros Hring Hdef.
  destruct (walk_simple_ring E L (Some coords) Hring)
    as (m & w & l & z & Hwalk & Hperm & _).
  assert (Hdef' : ∀ n, n ∈ m :: w :: l → is_Some (coords !! n)).
  { intros n Hn. apply Hdef. by rewrite <- Hperm. }
  pose proof (calculate_polygon_area_exact _ _ Hdef') as Ha.
  pose proof (calculate_polygon_area_reverse _ _ Hdef') as Hrev.
  set (a := (Q2Qc (1 # 2) * cycle_sum (shoelace_term coords) (m :: w :: l))%Qc) in *.
  unfold to_node_list. rewrite Hwalk. cbn [mbind result_bind coords_dict].
  rewrite Ha. cbn [mbind result_bind num_ltb exact num_zero].
  destruct (Qclt_le_dec a (Q2Qc 0)) as [Hneg|Hpos].
  - exists (last_to_front (reverse (m :: w :: l))), (- a)%Qc.
    split_and!; [done| |].
    + rewrite last_to_front_rotation. unfold cyclic_rotation.
      rewrite calculate_polygon_area_rotate; [done|].
      intros n Hn. apply Hdef'. by rewrite elem_of_reverse in Hn.
    + apply Qclt_le_weak, Qcopp_le_compat in Hneg.
      by replace (- 0)%Qc with 0%Qc in Hneg by ring.
  - by exists (m :: w :: l), a.
Qed.
End simple_ring_to_node_list.

(** C5 (amended): for a shape whose edge set is a single simple ring,
    [to_node_list] returns a cycle ordering of that ring that starts at
    the minimum node.  Without coordinates, every step goes to the
    smallest unvisited node linked to the current one.  With a coordinate
    map defined on the ring's nodes the ordering still starts at the
    minimum node, and when the area is computed in exact arithmetic the
    signed area of the returned ordering is non-negative. *)
Theorem to_node_list_simple_ring (E : gset Edge) (L : list Z) :
  simple_ring E L →
  (∀ T (N : Number T),
     ∃ L', to_node_list (mkShape (T:=T) E None) = Ok L' ∧
           simple_ring E L' ∧
           (∃ m, head L' = Some m ∧ m ∈ nodes (mkShape (T:=T) E None) ∧
                 ∀ y, y ∈ nodes (mkShape (T:=T) E None) → (m ≤ y)%Z) ∧
           (∀ i u w, L' !! i = Some u → L' !! S i = Some w →
              linked E u w ∧ (w ∉ take (S i) L') ∧
              ∀ y, linked E u y → y ∉ take (S i) L' → (w ≤ y)%Z)) ∧
  (∀ T (N : Number T) (coords : gmap Z (Coord T)),
     (∀ n, n ∈ L → is_Some (coords !! n)) →
     ∃ L', to_node_list (mkShape E (Some coords)) = Ok L' ∧
           simple_ring E L' ∧
           (∃ m, head L' = Some m ∧ m ∈ nodes (mkShape E (Some coords)) ∧
                 ∀ y, y ∈ nodes (mkShape E (Some coords)) → (m ≤ y)%Z)) ∧
  (∀ coords : gmap Z (Coord Qc),
     (∀ n, n ∈ L → is_Some (coords !! n)) →
     ∃ L' a, to_node_list (mkShape E (Some coords)) = Ok L' ∧
             calculate_polygon_area L' coords = Ok a ∧ (0 ≤ a)%Qc).
Proof.
  intros Hring. split_and!.
  - intros T N. apply (to_node_list_abstract_ring E L Hring).
  - intros T N coords Hdef. apply (to_node_list_coords_ring E L coords Hring Hdef).
  - intros coords Hdef. apply (to_node_list_exact_area E L coords Hring Hdef).
Qed.

Lemma to_node_list_simple_ring_witness :
  let E : gset Edge :=
    list_to_set [Tuple 0 1; Tuple 2 1; Frozen {[2; 3]}; Tuple 3 0]%Z in
  ∃ L' a, to_node_list (mkShape E (Some square_coords)) = Ok L' ∧
          calculate_polygon_area L' square_coords = Ok a ∧ (0 ≤ a)%Qc.
Proof.
  intros E.
  assert (Hring : simple_ring E [0; 1; 2; 3]%Z).
  { by_computation. }
  apply (to_node_list_simple_ring E [0; 1; 2; 3]%Z Hring). solve_defined.
Defined.

(** In binary64 arithmetic the ordering returned for this ring has a
    negative computed area, and its exact area is negative as well: the
    rounded area of the first ordering had the wrong sign. *)
Lemma to_node_list_float_counterexample :
  let s := mkShape (node_list_to_edges [0; 1; 2; 3]%Z true) (Some float_coords) in
  simple_ring (edges s) [0; 1; 2; 3]%Z ∧
  to_node_list s = Ok [0; 3; 2; 1]%Z ∧
  calculate_polygon_area [0; 3; 2; 1]%Z float_coords = Ok (-0.5)%float ∧
  PrimFloat.ltb (-0.5) 0 = true ∧
  calculate_polygon_area [0; 3; 2; 1]%Z exact_coords = Ok (Q2Qc (-16)).
Proof.
  split_and!.
  - by_computation.
  - vm_compute. reflexivity.
  - vm_compute. reflexivity.
  - vm_compute. reflexivity.
  - rewrite calculate_polygon_area_exact by solve_defined.
    f_equal. apply Qc_is_canon. vm_compute. reflexivity.
Qed.

Lemma to_node_list_of_node_list_to_edges_witness :
  ∃ L', to_node_list (mkShape (T:=Qc) (node_list_to_edges [5; 3; 9; 1; 7]%Z true) None)
        = Ok L' ∧
        ((∃ k, L' = rotate k [5; 3; 9; 1; 7]%Z) ∨
         (∃ k, L' = rotate k (reverse [5; 3; 9; 1; 7]%Z))).
Proof.
  apply to_node_list_of_node_list_to_edges.
  - by_computation.
  - simpl. lia.
Defined.

(** ** The test scenario, and instances of the theorems on it *)

(** C1: on the graph and coordinates of [test_two_squares] the ring
    finder yields exactly two current rings, each of length 4, and
    exactly one perimeter ring, of length 6. *)
Theorem RingFinder_two_squares :
  (rf ← RingFinder_init two_squares two_squares_coords;
   Ok (Shape_len <$> current_rings rf, Shape_len <$> perimeter_rings rf))
  = Ok ([4; 4], [6])%nat.
Proof. vm_compute. reflexivity. Qed.

Lemma agree_by_evaluation {T} `{!Number T} (A B : Shape T) :
  forallb (λ n, match coord_of A n, coord_of B n with
                | Ok a, Ok b => coord_equal a b
                | _, _ => false
                end) (elements (nodes A ∩ nodes B)) = true →
  ∀ n, n ∈ nodes A → n ∈ nodes B →
       ∃ a b, coord_of A n = Ok a ∧ coord_of B n = Ok b ∧ coord_equal a b = true.
Proof.
  intros Hall n HA HB. rewrite forallb_forall in Hall.
  specialize (Hall n). rewrite <- list_elem_of_In, elem_of_elements in Hall.
  specialize (Hall ltac:(set_solver)).
  destruct (coord_of A n) as [a|]; [|done].
  destruct (coord_of B n) as [b|]; [|done]. by exists a, b.
Qed.

(** A merge checked by evaluation: the coordinate comparisons, the edge
    set of the result and its coordinate map. *)
Lemma merge_by_evaluation {T} `{!Number T} (A B S : Shape T) :
  forallb (λ n, match coord_of A n, coord_of B n with
                | Ok a, Ok b => coord_equal a b
                | _, _ => false
                end) (elements (nodes A ∩ nodes B)) = true →
  symmetric_difference (edges A) (edges B) = edges S →
  coords_dict S = coords_dict A →
  merge A B = Ok S.
Proof.
  intros Hagree Hedges Hcoords. rewrite (merge_Ok_intro A B).
  - destruct S. simpl in *. by subst.
  - intros n HA HB. by apply agree_by_evaluation.
Qed.

Ltac merge_evaluated :=
  apply merge_by_evaluation;
  [ vm_compute; reflexivity
  | by_computation
  | cbv delta [hexagon left_square right_square]; cbn [coords_dict]; reflexivity ].

Lemma merge_symmetric_difference_witness :
  ∃ S, merge left_square right_square = Ok S ∧
       coords_dict S = coords_dict left_square ∧
       ∀ e, e ∈ edges S ↔
            (e ∈ edges left_square ∧ (e ∉ edges right_square)) ∨
            ((e ∉ edges left_square) ∧ e ∈ edges right_square).
Proof.
  apply merge_symmetric_difference, agree_by_evaluation.
  vm_compute. reflexivity.
Defined.

Lemma merge_conflicting_coordinates_witness :
  merge left_square moved_square = Raise ValueError.
Proof.
  refine (proj2 (proj1 (merge_conflicting_coordinates left_square moved_square
                          two_squares_coords
                          (<[2%Z := (1, 1.5)%float]> two_squares_coords)
                          eq_refl eq_refl) _) _).
  - exists 2%Z, (1, 1)%float, (1, 1.5)%float.
    split_and!; [by_computation|vm_compute; reflexivity..].
  - by_computation.
Defined.

(** A shared node the loop reaches before the conflicting one and that
    has no coordinates: the rings 0-1-8-9 and 1-8-4-5 share the nodes 1
    and 8, the maps disagree on node 1 and leave out node 8, the loop
    visits 8 first, and the subscript raises KeyError. *)
Lemma merge_conflicting_KeyError :
  (∃ n a b, n ∈ nodes ring_0189 ∩ nodes ring_1845 ∧
            coords_0189 !! n = Some a ∧ coords_1845 !! n = Some b ∧
            coord_equal a b = false) ∧
  elements (nodes ring_0189 ∩ nodes ring_1845) = [8; 1]%Z ∧
  merge ring_0189 ring_1845 = Raise KeyError ∧
  merge ring_0189 ring_1845 ≠ Raise ValueError.
Proof.
  split_and!.
  - exists 1%Z, (0, 1)%float, (5, 5)%float.
    split_and!; [by_computation|vm_compute; reflexivity..].
  - vm_compute. reflexivity.
  - vm_compute. reflexivity.
  - vm_compute. discriminate.
Qed.

Lemma merge_involutive_witness :
  Shape_eq (mkShape (edges left_square) (Some two_squares_coords)) left_square = true.
Proof.
  apply (merge_involutive left_square right_square hexagon); merge_evaluated.
Defined.

Lemma merge_abstract_witness :
  merge abstract_left abstract_right = Raise TypeError.
Proof.
  refine (proj1 (merge_abstract abstract_left abstract_right eq_refl eq_refl) _).
  by_computation.
Defined.

Lemma area_rotation_exact_witness :
  calculate_polygon_area (cyclic_rotation 1 [0; 1; 2; 3]%Z) square_coords =
    calculate_polygon_area [0; 1; 2; 3]%Z square_coords ∧
  calculate_polygon_area (last_to_front [0; 1; 2; 3]%Z) square_coords =
    calculate_polygon_area [0; 1; 2; 3]%Z square_coords.
Proof. apply area_rotation_exact. solve_defined. Defined.

(** * Further properties of [shape.py] *)

(** ** Errors and inputs of [calculate_polygon_area] *)

Section area_errors.
Context {T : Type} `{!Number T}.
Implicit Types (L : list Z) (coords : gmap Z (Coord T)).

Lemma dict_get_None {V} (d : gmap Z V) k : d !! k = None → dict_get d k = Raise KeyError.
Proof. unfold dict_get. by intros ->. Qed.

(** The loop either returns, and then every node it visited has
    coordinates, or it raises KeyError. *)
Lemma area_loop_cases L coords items acc :
  (∀ i n, (i, n) ∈ items → n ∈ L) →
  (∃ a, area_loop L coords items acc = Ok a ∧
        ∀ i n, (i, n) ∈ items → is_Some (coords !! n)) ∨
  area_loop L coords items acc = Raise KeyError.
Proof.
  revert acc. induction items as [|[i n] items IH]; intros acc Hitems.
  - left. eexists. split; [done|]. intros i n Hin. by apply elem_of_nil in Hin.
  - simpl. assert (Hn : n ∈ L) by (eapply Hitems; by left).
    destruct (coords !! n) as [p|] eqn:Hp.
    2:{ right. by rewrite (dict_get_None _ _ Hp). }
    rewrite (dict_get_Some _ _ _ Hp). cbn [mbind result_bind].
    assert (is_Some (L !! ((i + 1) `mod` length L)%nat)) as [x Hx].
    { apply lookup_lt_is_Some, Nat.mod_upper_bound.
      destruct L; [by apply elem_of_nil in Hn|done]. }
    rewrite (list_get_Some _ _ _ Hx). cbn [mbind result_bind].
    destruct (coords !! x) as [q|] eqn:Hq.
    2:{ right. by rewrite (dict_get_None _ _ Hq). }
    rewrite (dict_get_Some _ _ _ Hq). cbn [mbind result_bind].
    destruct (IH (num_add acc (num_sub (num_mul p.1 q.2) (num_mul p.2 q.1))))
      as [(a & Ha & Hdef)|Herr].
    + intros j y Hj. eapply Hitems. by right.
    + left. exists a. split; [done|].
      intros j y [Heq|Hj]%elem_of_cons; [injection Heq as -> ->|]; eauto.
    + by right.
Qed.

Lemma enumerate_covers L n : n ∈ L → ∃ i, (i, n) ∈ enumerate L.
Proof.
  intros (i & Hi)%list_elem_of_lookup. exists i. unfold enumerate.
  by apply (elem_of_lookup_imap_2 (λ i x, (i, x))).
Qed.

Lemma enumerate_in L i n : (i, n) ∈ enumerate L → n ∈ L.
Proof.
  intros (j & y & Heq & Hj)%elem_of_lookup_imap_1. injection Heq as -> ->.
  by eapply list_elem_of_lookup_2.
Qed.

(** [calculate_polygon_area] returns exactly on lists whose nodes all have
    coordinates, and fails with KeyError otherwise. *)
Lemma calculate_polygon_area_defined L coords :
  ((∃ a, calculate_polygon_area L coords = Ok a) ↔
   ∀ n, n ∈ L → is_Some (coords !! n)) ∧
  ((∃ n, n ∈ L ∧ coords !! n = None) →
   calculate_polygon_area L coords = Raise KeyError).
Proof.
  assert (Hcases :
    (∃ a, calculate_polygon_area L coords = Ok a ∧
          ∀ n, n ∈ L → is_Some (coords !! n)) ∨
    calculate_polygon_area L coords = Raise KeyError).
  { unfold calculate_polygon_area.
    destruct (area_loop_cases L coords (enumerate L) num_zero)
      as [(a & -> & Hdef)| ->].
    - intros i n. apply enumerate_in.
    - left. eexists. split; [done|]. intros n (i & Hi)%enumerate_covers. eauto.
    - by right. }
  split.
  - split.
    + intros [a Ha]. destruct Hcases as [(a' & _ & Hdef)|Herr]; [done|congruence].
    + apply calculate_polygon_area_total.
  - intros (n & Hn & Hnone).
    destruct Hcases as [(a & _ & Hdef)|Herr]; [|done].
    destruct (Hdef n Hn) as [p Hp]. congruence.
Qed.

(** X1: [calculate_polygon_area] returns a number exactly when every node of
    the list has coordinates; when one has none it raises KeyError, and
    no other exception is possible. *)
Theorem calculate_polygon_area_KeyError L coords :
  ((∃ a, calculate_polygon_area L coords = Ok a) ↔
   ∀ n, n ∈ L → is_Some (coords !! n)) ∧
  ((∃ n, n ∈ L ∧ coords !! n = None) →
   calculate_polygon_area L coords = Raise KeyError).
Proof. apply calculate_polygon_area_defined. Qed.

Lemma area_loop_agree L coords coords' items acc :
  (∀ n, n ∈ L → coords !! n = coords' !! n) →
  (∀ i n, (i, n) ∈ items → n ∈ L) →
  area_loop L coords items acc = area_loop L coords' items acc.
Proof.
  intros Hagree. revert acc.
  induction items as [|[i n] items IH]; intros acc Hitems; [done|].
  assert (Hget : ∀ x, x ∈ L → dict_get coords x = dict_get coords' x).
  { intros x Hx. unfold dict_get. by rewrite (Hagree x Hx). }
  simpl. rewrite (Hget n) by (eapply Hitems; by left).
  destruct (dict_get coords' n) as [p|]; [|done]. cbn [mbind result_bind].
  destruct (list_get L _) as [x|] eqn:Hx; [|done]. cbn [mbind result_bind].
  rewrite (Hget x).
  2:{ unfold list_get in Hx. destruct (L !! _) eqn:Hl; [|done].
      injection Hx as ->. by eapply list_elem_of_lookup_2. }
  destruct (dict_get coords' x) as [q|]; [|done]. cbn [mbind result_bind].
  apply IH. intros j y Hj. eapply Hitems. by right.
Qed.

(** X2: The area reads the coordinate map only at the nodes of the list:
    two maps that agree there give the same result, error included. *)
Theorem calculate_polygon_area_agree L coords coords' :
  (∀ n, n ∈ L → coords !! n = coords' !! n) →
  calculate_polygon_area L coords = calculate_polygon_area L coords'.
Proof.
  intros Hagree. unfold calculate_polygon_area.
  rewrite (area_loop_agree L coords coords'); [done|done|].
  intros i n. apply enumerate_in.
Qed.
End area_errors.

(** ** Geometry of the exact area *)

Section exact_geometry.
Open Scope Qc_scope.
Implicit Types (L : list Z) (coords : gmap Z (Coord Qc)) (g h : Z → Z → Qc).

(** A sum whose terms differ by [f a - f b] telescopes along a path. *)
Lemma path_sum_telescope g g' (f : Z → Qc) x p :
  (∀ a b, a ∈ x :: p → b ∈ x :: p → g' a b = g a b + f a - f b) →
  path_sum g' (x :: p) =
    path_sum g (x :: p) + f x - f (default x (last (x :: p))).
Proof.
  revert x. induction p as [|y p IH]; intros x Hg.
  - simpl. ring.
  - rewrite !path_sum_cons, last_cons_cons.
    rewrite IH by (intros a b Ha Hb; apply Hg; by right).
    rewrite Hg by (set_solver).
    assert (default x (last (y :: p)) = default y (last (y :: p))) as ->.
    { destruct (last (y :: p)) eqn:Hl; [done|].
      by apply last_None in Hl. }
    ring.
Qed.

Lemma cycle_sum_telescope g g' (f : Z → Qc) L :
  (∀ a b, a ∈ L → b ∈ L → g' a b = g a b + f a - f b) →
  cycle_sum g' L = cycle_sum g L.
Proof.
  intros Hg. destruct L as [|x l]; [done|]. unfold cycle_sum.
  rewrite <- !app_comm_cons.
  rewrite (path_sum_telescope g g' f).
  - rewrite app_comm_cons, last_snoc. simpl. ring.
  - intros a b Ha Hb. apply Hg.
    + rewrite app_comm_cons in Ha. set_solver.
    + rewrite app_comm_cons in Hb. set_solver.
Qed.

(** The coordinate map moved by the vector [(tx, ty)]. *)
Lemma shoelace_term_translate coords (tx ty : Qc) a b :
  is_Some (coords !! a) → is_Some (coords !! b) →
  shoelace_term ((λ p : Coord Qc, (p.1 + tx, p.2 + ty)) <$> coords) a b =
    shoelace_term coords a b
    + ((default (0, 0) (coords !! a)).1 * ty - (default (0, 0) (coords !! a)).2 * tx)
    - ((default (0, 0) (coords !! b)).1 * ty - (default (0, 0) (coords !! b)).2 * tx).
Proof.
  intros [p Hp] [q Hq]. unfold shoelace_term.
  rewrite !lookup_fmap, Hp, Hq. simpl. ring.
Qed.

(** X3: In exact arithmetic the signed area does not change when every
    coordinate is moved by the same vector. *)
Theorem calculate_polygon_area_translate L coords (tx ty : Qc) :
  (∀ n, n ∈ L → is_Some (coords !! n)) →
  calculate_polygon_area L ((λ p : Coord Qc, (p.1 + tx, p.2 + ty)) <$> coords) =
    calculate_polygon_area L coords.
Proof.
  intros Hdef. rewrite !calculate_polygon_area_exact; [|done|].
  - f_equal. f_equal.
    apply (cycle_sum_telescope _ _
      (λ n, (default (0, 0) (coords !! n)).1 * ty
            - (default (0, 0) (coords !! n)).2 * tx)).
    intros a b Ha Hb. apply shoelace_term_translate; by apply Hdef.
  - intros n Hn. rewrite lookup_fmap. destruct (Hdef n Hn) as [p ->]. by eexists.
Qed.

(** X5: In exact arithmetic a list of at most two nodes encloses nothing:
    its signed area is zero. *)
Theorem calculate_polygon_area_degenerate L coords :
  (length L ≤ 2)%nat →
  (∀ n, n ∈ L → is_Some (coords !! n)) →
  calculate_polygon_area L coords = Ok 0.
Proof.
  intros Hlen Hdef. rewrite calculate_polygon_area_exact by done. f_equal.
  destruct L as [|a [|b [|c l]]]; [| | |simpl in Hlen; lia].
  - simpl. ring.
  - unfold cycle_sum. cbn [app]. rewrite path_sum_cons. simpl.
    unfold shoelace_term. ring.
  - unfold cycle_sum. cbn [app]. rewrite !path_sum_cons. simpl.
    rewrite (shoelace_term_anti coords a b). ring.
Qed.

(** X4: In exact arithmetic, multiplying every coordinate by [k] multiplies
    the signed area by [k * k]. *)
Theorem calculate_polygon_area_scale L coords (k : Qc) :
  (∀ n, n ∈ L → is_Some (coords !! n)) →
  ∃ a, calculate_polygon_area L coords = Ok a ∧
       calculate_polygon_area L ((λ p : Coord Qc, (k * p.1, k * p.2)) <$> coords)
       = Ok (k * k * a).
Proof.
  intros Hdef. eexists. split; [by apply calculate_polygon_area_exact|].
  rewrite calculate_polygon_area_exact.
  2:{ intros n Hn. rewrite lookup_fmap. destruct (Hdef n Hn) as [p ->]. by eexists. }
  f_equal.
  assert (Hsum : ∀ p : list Z, (∀ n, n ∈ p → is_Some (coords !! n)) →
    path_sum (shoelace_term ((λ p : Coord Qc, (k * p.1, k * p.2)) <$> coords)) p =
    k * k * path_sum (shoelace_term coords) p).
  { induction p as [|x p IH]; intros Hp; [simpl; ring|].
    destruct p as [|y p]; [simpl; ring|].
    rewrite !path_sum_cons, IH by (intros n Hn; apply Hp; by right).
    destruct (Hp x) as [px Hx]; [by left|].
    destruct (Hp y) as [py Hy]; [by right; left|].
    unfold shoelace_term at 1 3. rewrite !lookup_fmap, Hx, Hy. simpl. ring. }
  destruct L as [|x l]; [simpl; ring|]. unfold cycle_sum.
  rewrite Hsum; [ring|]. intros n Hn. apply Hdef. set_solver.
Qed.
End exact_geometry.

(** ** [node_list_to_edges]: chains, rings and small lists *)

Section node_list_to_edges_facts.
Implicit Types (L l : list Z).

(** The loop of [node_list_to_edges] without the closing edge. *)
Lemma node_list_to_edges_chain_loop l1 a l2 acc :
  foldl
    (λ edges i,
       match (l1 ++ a :: l2) !! i,
             (l1 ++ a :: l2) !! ((i + 1) `mod` length (l1 ++ a :: l2)) with
       | Some x, Some y => edges ∪ {[ Frozen {[x; y]} ]}
       | _, _ => edges
       end)
    acc (seq (length l1) (length l2)) =
  acc ∪ path_edges (a :: l2).
Proof.
  revert l1 a acc. induction l2 as [|b l2 IH]; intros l1 a acc.
  - simpl. set_solver.
  - cbn [length seq foldl].
    rewrite (lookup_app_r l1) by lia. rewrite Nat.sub_diag. cbn [lookup list_lookup].
    assert ((l1 ++ a :: b :: l2) !! ((length l1 + 1) `mod` length (l1 ++ a :: b :: l2))
            = Some b) as ->.
    { rewrite length_app. simpl. rewrite Nat.mod_small by lia.
      rewrite lookup_app_r by lia.
      by replace (length l1 + 1 - length l1)%nat with 1%nat by lia. }
    specialize (IH (l1 ++ [a]) b (acc ∪ {[Frozen {[a; b]}]})).
    rewrite <- app_assoc in IH. cbn [app] in IH.
    replace (length (l1 ++ [a])) with (S (length l1)) in IH
      by (rewrite length_app; simpl; lia).
    rewrite IH, path_edges_cons. set_solver.
Qed.

Lemma node_list_to_edges_chain L : node_list_to_edges L false = path_edges L.
Proof.
  unfold node_list_to_edges. destruct L as [|a l]; [done|].
  replace (Z.to_nat (Z.of_nat (length (a :: l)) + -1)) with (length l)
    by (simpl; lia).
  pose proof (node_list_to_edges_chain_loop [] a l ∅) as H.
  cbn [app] in H. cbn [length] in *. rewrite H. set_solver.
Qed.

(** The nodes of the shape over a ring or a chain. *)
Lemma nodes_of_node_list_to_edges {T} `{!Number T} L
    (c : option (gmap Z (Coord T))) :
  nodes (mkShape (node_list_to_edges L true) c) = list_to_set L ∧
  ((2 ≤ length L)%nat →
   nodes (mkShape (node_list_to_edges L false) c) = list_to_set L) ∧
  ((length L ≤ 1)%nat → node_list_to_edges L false = ∅).
Proof.
  split_and!.
  - rewrite node_list_to_edges_cycle. apply nodes_cycle_edges.
  - intros Hlen. rewrite node_list_to_edges_chain.
    apply set_eq. intros v. rewrite elem_of_nodes, elem_of_list_to_set. simpl. split.
    + intros (e & He & Hv). by eapply path_edges_nodes.
    + intros (i & Hi)%list_elem_of_lookup.
      destruct (decide (S i < length L)%nat) as [Hlt|Hge].
      * destruct (lookup_lt_is_Some_2 L (S i) Hlt) as [b Hb].
        exists (Frozen {[v; b]}). split; [|simpl; set_solver].
        apply elem_of_path_edges. by exists i, v, b.
      * destruct i as [|i]; [apply lookup_lt_Some in Hi; lia|].
        destruct (lookup_lt_is_Some_2 L i) as [b Hb];
          [apply lookup_lt_Some in Hi; lia|].
        exists (Frozen {[b; v]}). split; [|simpl; set_solver].
        apply elem_of_path_edges. by exists i, b, v.
  - intros Hlen. rewrite node_list_to_edges_chain.
    destruct L as [|a [|b l]]; [done|done|simpl in Hlen; lia].
Qed.

(** X6: A chain of distinct nodes has one edge fewer than nodes, and a ring
    of at least three distinct nodes has as many edges as nodes. *)
Theorem node_list_to_edges_size L :
  NoDup L →
  size (node_list_to_edges L false) = (length L - 1)%nat ∧
  ((3 ≤ length L)%nat → size (node_list_to_edges L true) = length L).
Proof.
  intros Hnd. split.
  - rewrite node_list_to_edges_chain. by apply size_path_edges.
  - intros Hlen. rewrite node_list_to_edges_cycle. by apply size_cycle_edges.
Qed.

(** X7: The ring over a list is the chain over it plus the edge that closes
    it, from the last node back to the first. *)
Theorem node_list_to_edges_closing_edge L first last_node :
  head L = Some first → last L = Some last_node →
  node_list_to_edges L true =
    node_list_to_edges L false ∪ {[ Frozen {[last_node; first]} ]}.
Proof.
  intros Hhead Hlast.
  rewrite node_list_to_edges_cycle, node_list_to_edges_chain.
  destruct L as [|x l]; [done|]. injection Hhead as ->.
  destruct (snoc_inv (first :: l)) as (l' & z & Hl'); [done|].
  rewrite Hl', last_snoc in Hlast. injection Hlast as ->.
  unfold cycle_edges. rewrite Hl', <- app_assoc. cbn [app].
  apply path_edges_snoc.
Qed.

(** X8: Rotating or reversing the node list gives the same ring, so the
    shapes built from the lists are equal. *)
Theorem node_list_to_edges_rotate_reverse {T} `{!Number T} L (k : nat)
    (c c' : option (gmap Z (Coord T))) :
  node_list_to_edges (rotate k L) true = node_list_to_edges L true ∧
  node_list_to_edges (reverse L) true = node_list_to_edges L true ∧
  Shape_eq (mkShape (node_list_to_edges (rotate k L) true) c)
           (mkShape (node_list_to_edges L true) c') = true ∧
  Shape_eq (mkShape (node_list_to_edges (reverse L) true) c)
           (mkShape (node_list_to_edges L true) c') = true.
Proof.
  assert (Hrot : node_list_to_edges (rotate k L) true = node_list_to_edges L true).
  { rewrite !node_list_to_edges_cycle. unfold rotate.
    by rewrite cycle_edges_app, take_drop. }
  assert (Hrev : node_list_to_edges (reverse L) true = node_list_to_edges L true).
  { rewrite !node_list_to_edges_cycle. apply cycle_edges_reverse. }
  split_and!; [done|done|by apply Shape_eq_spec..].
Qed.

(** X9: The nodes of the shape over a ring are the nodes of the list; so are
    those of a chain of at least two nodes, while a chain of fewer nodes
    has no edge at all. *)
Theorem nodes_node_list_to_edges {T} `{!Number T} L
    (c : option (gmap Z (Coord T))) :
  nodes (mkShape (node_list_to_edges L true) c) = list_to_set L ∧
  ((2 ≤ length L)%nat →
   nodes (mkShape (node_list_to_edges L false) c) = list_to_set L) ∧
  ((length L ≤ 1)%nat → node_list_to_edges L false = ∅).
Proof. apply nodes_of_node_list_to_edges. Qed.

(** X10: A ring of two nodes is a single edge, the same as the chain of the
    two, and the node list of its shape is the smaller node alone: the
    round trip through [to_node_list] needs three nodes. *)
Theorem two_node_ring {T} `{!Number T} (a b : Z) :
  node_list_to_edges [a; b] true = {[ Frozen {[a; b]} ]} ∧
  node_list_to_edges [a; b] true = node_list_to_edges [a; b] false ∧
  to_node_list (mkShape (T:=T) (node_list_to_edges [a; b] true) None)
    = Ok [Z.min a b].
Proof.
  assert (Hring : node_list_to_edges [a; b] true = {[ Frozen {[a; b]} ]}).
  { rewrite node_list_to_edges_cycle. unfold cycle_edges. cbn [app].
    rewrite !path_edges_cons, (Frozen_pair_comm b a). simpl. set_solver. }
  split_and!; [done| |].
  - rewrite Hring, node_list_to_edges_chain. simpl. set_solver.
  - unfold to_node_list, walk.
    rewrite node_list_to_edges_cycle, nodes_cycle_edges.
    assert (py_min (list_to_set [a; b]) = Ok (Z.min a b)) as ->.
    { apply py_min_spec. split.
      - destruct (Z.min_spec a b) as [[_ ->]|[_ ->]]; set_solver.
      - intros y Hy. set_unfold. lia. }
    cbn [mbind result_bind edges].
    rewrite <- node_list_to_edges_cycle, Hring, size_singleton.
    cbn [to_node_list_loop length]. rewrite size_singleton.
    by rewrite bool_decide_eq_false_2 by lia.
Qed.
End node_list_to_edges_facts.

(** ** How merges compose *)

Section merge_algebra.
Context {T : Type} `{!Number T}.
Implicit Types A B C S : Shape T.

(** [merge] returns exactly on shapes that agree at their shared nodes. *)
Lemma merge_Ok_agree A B S :
  merge A B = Ok S ↔
  (∀ n, n ∈ nodes A ∩ nodes B → agree_at A B n) ∧
  S = mkShape (symmetric_difference (edges A) (edges B)) (coords_dict A).
Proof.
  split.
  - intros [Hok ->]%merge_Ok_inv. split; [|done].
    intros n Hn. rewrite check_common_Ok in Hok. by apply Hok, elem_of_elements.
  - intros [Hagree ->]. apply merge_Ok_intro.
    intros n HA HB. apply Hagree. by apply elem_of_intersection.
Qed.

(** X11: [merge] returns exactly when the two shapes agree at every node they
    share, and then the result is the symmetric difference of the edges
    with the coordinate map of the receiver. *)
Theorem merge_Ok_iff A B S :
  merge A B = Ok S ↔
  (∀ n, n ∈ nodes A ∩ nodes B → agree_at A B n) ∧
  S = mkShape (symmetric_difference (edges A) (edges B)) (coords_dict A).
Proof. apply merge_Ok_agree. Qed.

Lemma size_symmetric_difference `{Countable K} (X Y : gset K) :
  (size (symmetric_difference X Y) + 2 * size (X ∩ Y) = size X + size Y)%nat.
Proof.
  assert (HX : size X = (size (X ∖ Y) + size (X ∩ Y))%nat).
  { rewrite <- size_union by set_solver. f_equal. apply set_eq. intros x.
    destruct (decide (x ∈ Y)); set_solver. }
  assert (HY : size Y = (size (Y ∖ X) + size (X ∩ Y))%nat).
  { rewrite <- size_union by set_solver. f_equal. apply set_eq. intros x.
    destruct (decide (x ∈ X)); set_solver. }
  unfold symmetric_difference. rewrite size_union by set_solver. lia.
Qed.

(** X12: The merged shape has the edges of both operands less twice the
    edges they have in common. *)
Theorem merge_len A B S :
  merge A B = Ok S →
  (Shape_len S + 2 * size (edges A ∩ edges B) = Shape_len A + Shape_len B)%nat.
Proof.
  intros [_ ->]%merge_Ok_inv. unfold Shape_len. simpl.
  apply size_symmetric_difference.
Qed.

(** X13: Merging in either order gives equal shapes; they differ only in the
    coordinate map they carry, each that of its receiver. *)
Theorem merge_commutes A B S1 S2 :
  merge A B = Ok S1 → merge B A = Ok S2 →
  Shape_eq S1 S2 = true ∧
  coords_dict S1 = coords_dict A ∧ coords_dict S2 = coords_dict B.
Proof.
  intros [_ ->]%merge_Ok_inv [_ ->]%merge_Ok_inv. split_and!; [|done..].
  apply Shape_eq_spec. simpl. unfold symmetric_difference. set_solver.
Qed.

Lemma symmetric_difference_assoc `{Countable K} (X Y Z : gset K) :
  symmetric_difference (symmetric_difference X Y) Z =
  symmetric_difference X (symmetric_difference Y Z).
Proof.
  apply set_eq. intros x. rewrite !elem_of_symmetric_difference.
  destruct (decide (x ∈ X)), (decide (x ∈ Y)), (decide (x ∈ Z)); naive_solver.
Qed.

(** X14: Merging is associative up to equality of shapes: when the four
    merges return, [(A.merge(B)).merge(C) == A.merge(B.merge(C))]. *)
Theorem merge_assoc A B C AB BC R1 R2 :
  merge A B = Ok AB → merge AB C = Ok R1 →
  merge B C = Ok BC → merge A BC = Ok R2 →
  Shape_eq R1 R2 = true ∧ coords_dict R1 = coords_dict R2.
Proof.
  intros [_ ->]%merge_Ok_inv [_ ->]%merge_Ok_inv
         [_ ->]%merge_Ok_inv [_ ->]%merge_Ok_inv.
  split; [|done]. apply Shape_eq_spec. simpl. apply symmetric_difference_assoc.
Qed.

(** X15: A shape merged with itself, when the merge returns, has no edge and
    no node left, and asking it for a node list raises ValueError. *)
Theorem merge_self A S :
  merge A A = Ok S →
  Shape_len S = 0%nat ∧ nodes S = ∅ ∧ to_node_list S = Raise ValueError.
Proof.
  intros [_ ->]%merge_Ok_inv.
  assert (Hempty : symmetric_difference (edges A) (edges A) = ∅).
  { unfold symmetric_difference. set_solver. }
  assert (Hnodes : nodes (mkShape (symmetric_difference (edges A) (edges A))
                            (coords_dict A)) = ∅).
  { unfold nodes. simpl. by rewrite Hempty, elements_empty. }
  split_and!.
  - unfold Shape_len. simpl. by rewrite Hempty, size_empty.
  - done.
  - unfold to_node_list, walk. rewrite Hnodes. unfold py_min.
    by rewrite elements_empty.
Qed.

(** X16: Merging adds no node: the nodes of the result are nodes of one of
    the operands. *)
Theorem merge_nodes A B S :
  merge A B = Ok S → nodes S ⊆ nodes A ∪ nodes B.
Proof.
  intros [_ ->]%merge_Ok_inv n. rewrite elem_of_union, !elem_of_nodes. simpl.
  intros (e & He & Hn). apply elem_of_symmetric_difference in He as [[He _]|[_ He]].
  - left. by exists e.
  - right. by exists e.
Qed.

End merge_algebra.

(** X18: With exact coordinates the comparison of [merge] is symmetric, so
    [A.merge(B)] returns exactly when [B.merge(A)] does. *)
Theorem merge_returns_symmetric (A B : Shape Qc) :
  (∃ S, merge A B = Ok S) ↔ (∃ S, merge B A = Ok S).
Proof.
  assert (Hsym : ∀ X Y : Shape Qc, (∃ S, merge X Y = Ok S) → ∃ S, merge Y X = Ok S).
  { intros X Y [S [Hagree _]%merge_Ok_agree]. eexists. apply merge_Ok_agree.
    split; [|done]. intros n Hn.
    destruct (Hagree n) as (a & b & Ha & Hb & Hab); [set_solver|].
    exists b, a. split_and!; [done..|].
    unfold coord_equal in *. simpl in *.
    destruct (Qc_eq_dec a.1 b.1) as [->|]; [|done].
    destruct (Qc_eq_dec a.2 b.2) as [->|]; [|done].
    by destruct (Qc_eq_dec b.1 b.1), (Qc_eq_dec b.2 b.2). }
  split; apply Hsym.
Qed.

(** ** What [to_node_list] keeps on every shape *)

Section walk_invariants.
Context {T : Type} `{!Number T}.
Implicit Types (L l : list Z) (E : gset Edge) (s : Shape T).

Lemma linked_nodes E u x (c : option (gmap Z (Coord T))) :
  linked E u x → x ∈ nodes (mkShape E c).
Proof. intros (e & He & _ & Hx). apply elem_of_nodes. by exists e. Qed.

Lemma greedy_walk_snoc E l u w :
  greedy_walk E l → last l = Some u →
  py_min (connected_to E u ∖ list_to_set l) = Ok w →
  greedy_walk E (l ++ [w]) ∧ w ∉ l ∧ linked E u w.
Proof.
  intros Hgreedy Hlast [Hin Hleast]%py_min_spec.
  apply elem_of_difference in Hin as [Hlink Hnew].
  rewrite elem_of_list_to_set in Hnew. rewrite elem_of_connected_to in Hlink.
  split_and!; [|done..].
  intros i a b Ha Hb.
  assert (Hi : (S i < length (l ++ [w]))%nat) by (by eapply lookup_lt_Some).
  rewrite length_app in Hi. simpl in Hi.
  rewrite take_app_le by lia.
  destruct (decide (S i < length l)%nat) as [Hlt|Hge].
  - rewrite lookup_app_l in Ha by lia. rewrite lookup_app_l in Hb by lia.
    by apply Hgreedy.
  - assert (S i = length l) as HSi by lia.
    rewrite lookup_app_l in Ha by lia.
    rewrite lookup_app_r in Hb by lia.
    replace (S i - length l)%nat with 0%nat in Hb by lia. injection Hb as <-.
    rewrite last_lookup in Hlast.
    replace (Init.Nat.pred (length l)) with i in Hlast by lia.
    assert (a = u) as -> by congruence.
    rewrite HSi, firstn_all. split_and!; [done..|].
    intros y Hy Hynew. apply Hleast, elem_of_difference.
    split; [by apply elem_of_connected_to|by rewrite elem_of_list_to_set].
Qed.

(** The loop keeps the list free of repetitions and greedy, and stops
    with as many nodes as the shape has edges. *)
Lemma to_node_list_loop_inv E fuel l L' :
  (size E - length l ≤ fuel)%nat → l ≠ [] → (length l ≤ size E)%nat →
  NoDup l → greedy_walk E l →
  to_node_list_loop E fuel l (list_to_set l) = Ok L' →
  l `prefix_of` L' ∧ NoDup L' ∧ length L' = size E ∧ greedy_walk E L' ∧
  ∀ x, x ∈ L' → x ∈ l ∨ ∃ u, linked E u x.
Proof.
  revert l. induction fuel as [|fuel IH]; intros l Hfuel Hne Hlen Hnd Hgreedy.
  - simpl. intros [= <-]. split_and!; [done|done|lia|done|by left].
  - rewrite to_node_list_loop_unfold by done. case_bool_decide as Hlt.
    2:{ intros [= <-]. split_and!; [done|done|lia|done|by left]. }
    assert (is_Some (last l)) as [u Hu].
    { destruct l using rev_ind; [done|]. rewrite last_snoc. by eexists. }
    assert (list_get l (length l - 1) = Ok u) as ->.
    { apply list_get_Some. rewrite last_lookup in Hu.
      by replace (length l - 1)%nat with (Init.Nat.pred (length l)) by lia. }
    cbn [mbind result_bind].
    destruct (py_min (connected_to E u ∖ list_to_set l)) as [w|] eqn:Hw; [|done].
    cbn [mbind result_bind]. replace (S fuel - 1)%nat with fuel by lia.
    destruct (greedy_walk_snoc E l u w Hgreedy Hu Hw) as (Hgreedy' & Hnew & Hlink).
    intros Hloop. apply IH in Hloop.
    + destruct Hloop as (Hpre & HndL & HlenL & HgL & Hin). split_and!; try done.
      * etrans; [|done]. by apply prefix_app_r.
      * intros x Hx. destruct (Hin x Hx) as [Hxl|?]; [|by right].
        apply elem_of_app in Hxl as [?|Hxw]; [by left|].
        apply list_elem_of_singleton in Hxw as ->. right. by exists u.
    + rewrite length_app. simpl. lia.
    + by destruct l.
    + rewrite length_app. simpl. lia.
    + apply NoDup_app. split_and!; [done| |apply NoDup_singleton].
      intros x Hx ->%list_elem_of_singleton. done.
    + done.
Qed.

Lemma walk_invariants s L' :
  walk s = Ok L' →
  NoDup L' ∧ length L' = Shape_len s ∧ greedy_walk (edges s) L' ∧
  (∀ x, x ∈ L' → x ∈ nodes s) ∧
  ∃ m l, L' = m :: l ∧ m ∈ nodes s ∧ ∀ y, y ∈ nodes s → (m ≤ y)%Z.
Proof.
  unfold walk. destruct (py_min (nodes s)) as [m|] eqn:Hm; [|done].
  cbn [mbind result_bind]. apply py_min_spec in Hm as [Hm Hmin].
  assert (Hsize : (1 ≤ size (edges s))%nat).
  { apply elem_of_nodes in Hm as (e & He & _).
    assert (size (edges s) ≠ 0%nat); [|lia].
    intros H0%size_empty_inv. apply leibniz_equiv in H0. set_solver. }
  replace ({[m]} : gset Z) with (list_to_set [m] : gset Z)
    by (simpl; by rewrite union_empty_r_L).
  intros Hloop. apply to_node_list_loop_inv in Hloop.
  - destruct Hloop as (Hpre & Hnd & Hlen & Hg & Hin).
    split_and!; [done|done|done| |].
    + intros x Hx. destruct (Hin x Hx) as [Hxm|[u Hu]].
      * by apply list_elem_of_singleton in Hxm as ->.
      * destruct s. by eapply linked_nodes.
    + destruct Hpre as [l ->]. by exists m, l.
  - simpl. lia.
  - done.
  - simpl. lia.
  - apply NoDup_singleton.
  - intros i u w Hu Hw. by destruct i.
Qed.

(** What every returned node list has. *)
Lemma to_node_list_shape s L' :
  to_node_list s = Ok L' →
  NoDup L' ∧ length L' = Shape_len s ∧
  (∀ x, x ∈ L' → x ∈ nodes s) ∧
  ∃ m, head L' = Some m ∧ m ∈ nodes s ∧ ∀ y, y ∈ nodes s → (m ≤ y)%Z.
Proof.
  unfold to_node_list. destruct (walk s) as [Lw|] eqn:Hwalk; [|done].
  cbn [mbind result_bind].
  destruct (walk_invariants s Lw Hwalk)
    as (Hnd & Hlen & _ & Hin & m & l & -> & Hm & Hmin).
  assert (Hsame : Ok (m :: l) = Ok L' →
    NoDup L' ∧ length L' = Shape_len s ∧ (∀ x, x ∈ L' → x ∈ nodes s) ∧
    ∃ m, head L' = Some m ∧ m ∈ nodes s ∧ ∀ y, y ∈ nodes s → (m ≤ y)%Z).
  { intros [= <-]. split_and!; [done..|]. by exists m. }
  destruct (coords_dict s) as [coords|]; [|done].
  destruct (calculate_polygon_area (m :: l) coords) as [a|]; [|done].
  cbn [mbind result_bind]. destruct (num_ltb a num_zero); [|done].
  rewrite last_to_front_reverse_cons. intros [= <-].
  assert (Hperm : m :: reverse l ≡ₚ m :: l) by (by rewrite reverse_Permutation).
  split_and!.
  - by rewrite Hperm.
  - by rewrite Hperm.
  - intros x Hx. apply Hin. by rewrite <- Hperm.
  - by exists m.
Qed.

(** X19: Whenever [to_node_list] returns, the list has no repeated node, has
    as many nodes as the shape has edges, holds only nodes of the shape,
    and starts with the minimum node of the shape. *)
Theorem to_node_list_invariants s L' :
  to_node_list s = Ok L' →
  NoDup L' ∧ length L' = Shape_len s ∧
  (∀ x, x ∈ L' → x ∈ nodes s) ∧
  ∃ m, head L' = Some m ∧ m ∈ nodes s ∧ ∀ y, y ∈ nodes s → (m ≤ y)%Z.
Proof. apply to_node_list_shape. Qed.

(** X20: Without coordinates, whenever [to_node_list] returns, every step of
    the list goes to the smallest node linked to the current one that
    was not visited before. *)
Theorem to_node_list_greedy s L' :
  coords_dict s = None → to_node_list s = Ok L' → greedy_walk (edges s) L'.
Proof.
  intros Hnone. unfold to_node_list. rewrite Hnone.
  destruct (walk s) as [Lw|] eqn:Hwalk; [|done].
  cbn [mbind result_bind]. intros [= <-].
  by destruct (walk_invariants s Lw Hwalk) as (_ & _ & Hg & _).
Qed.
End walk_invariants.

(** ** Shapes that are not one ring *)

Section not_one_ring.
Context {T : Type} `{!Number T}.
Implicit Types (L l : list Z) (E : gset Edge).

Lemma connected_to_cycle_nodes L u y :
  y ∈ connected_to (cycle_edges L) u → y ∈ L.
Proof.
  intros (e & He & _ & Hy)%elem_of_connected_to.
  destruct L as [|x l]; [by apply not_elem_of_empty in He|].
  unfold cycle_edges in He.
  pose proof (path_edges_nodes _ _ _ He Hy) as Hin.
  apply elem_of_app in Hin as [?| ->%list_elem_of_singleton]; [done|by left].
Qed.

(** The walk around a ring inside a larger edge set: after the last node
    of the ring nothing unvisited is linked to it, and [min] of the empty
    set raises ValueError. *)
Lemma loop_on_cycle_stuck E L :
  NoDup L → (3 ≤ length L)%nat →
  (∀ m w l z, L = m :: w :: l → last L = Some z → (w ≤ z)%Z) →
  (∀ u, u ∈ L → connected_to E u = connected_to (cycle_edges L) u) →
  (length L < size E)%nat →
  ∀ l2 l0 u fuel,
    L = l0 ++ u :: l2 → (size E - length (l0 ++ [u]) ≤ fuel)%nat →
    to_node_list_loop E fuel (l0 ++ [u]) (list_to_set (l0 ++ [u]))
    = Raise ValueError.
Proof.
  intros Hnd Hlen Hfirst Hconn Hsize.
  induction l2 as [|w l2 IH]; intros l0 u fuel HL Hfuel.
  - rewrite to_node_list_loop_unfold by done.
    rewrite bool_decide_eq_true_2 by (rewrite <- HL; lia).
    assert (list_get (l0 ++ [u]) (length (l0 ++ [u]) - 1) = Ok u) as ->.
    { apply list_get_Some. rewrite length_app. simpl.
      rewrite lookup_app_r by lia.
      by replace (length l0 + 1 - 1 - length l0)%nat with 0%nat by lia. }
    cbn [mbind result_bind].
    assert (connected_to E u ∖ list_to_set (l0 ++ [u]) = ∅) as ->.
    { rewrite Hconn by (rewrite HL; set_solver). apply set_eq. intros y.
      rewrite elem_of_difference, elem_of_list_to_set, <- HL. split; [|set_solver].
      intros [Hy%connected_to_cycle_nodes Hny]. done. }
    unfold py_min. by rewrite elements_empty.
  - rewrite to_node_list_loop_unfold by done.
    rewrite bool_decide_eq_true_2.
    2:{ rewrite HL, !length_app in Hsize. rewrite length_app. simpl in *. lia. }
    assert (list_get (l0 ++ [u]) (length (l0 ++ [u]) - 1) = Ok u) as ->.
    { apply list_get_Some. rewrite length_app. simpl.
      rewrite lookup_app_r by lia.
      by replace (length l0 + 1 - 1 - length l0)%nat with 0%nat by lia. }
    cbn [mbind result_bind].
    assert (py_min (connected_to E u ∖ list_to_set (l0 ++ [u])) = Ok w) as ->.
    { rewrite Hconn by (rewrite HL; set_solver).
      rewrite HL. apply cycle_step; [by rewrite <- HL|].
      intros -> z Hz. eapply Hfirst; [done|]. by rewrite HL. }
    cbn [mbind result_bind].
    apply IH; [by rewrite <- app_assoc|].
    rewrite !length_app in *. simpl in *. lia.
Qed.

Lemma connected_to_union_l E1 E2 u :
  (∀ e, e ∈ E2 → u ∉ edge_nodes e) →
  connected_to (E1 ∪ E2) u = connected_to E1 u.
Proof.
  intros Hfar. apply set_eq. intros y. rewrite !elem_of_connected_to. split.
  - intros (e & [He|He]%elem_of_union & Hu & Hy); [by exists e|].
    by destruct (Hfar e He).
  - intros (e & He & Hu & Hy). exists e. split; [set_solver|done].
Qed.

Lemma two_rings_stuck L1 L2 (c : option (gmap Z (Coord T))) m :
  NoDup (L1 ++ L2) → (3 ≤ length L1)%nat → (3 ≤ length L2)%nat →
  m ∈ L1 → (∀ y, y ∈ L1 ++ L2 → (m ≤ y)%Z) →
  to_node_list (mkShape (cycle_edges L1 ∪ cycle_edges L2) c) = Raise ValueError.
Proof.
  intros Hnd Hlen1 Hlen2 Hm Hmin.
  apply NoDup_app in Hnd as (Hnd1 & Hdisj & Hnd2).
  destruct (canonical_cycle L1 Hnd1 Hlen1)
    as (m' & w & l & z & Hperm & Hl & Hmin' & Hlast & Hwz & Hedges & _).
  assert (m' = m) as ->.
  { apply Z.le_antisymm.
    - apply Hmin'. by rewrite Hperm.
    - apply Hmin. apply elem_of_app. left. rewrite <- Hperm. by left. }
  set (E := cycle_edges L1 ∪ cycle_edges L2).
  assert (Hfar : ∀ u e, u ∈ L1 → e ∈ cycle_edges L2 → u ∉ edge_nodes e).
  { intros u e Hu He Hin. apply (Hdisj u Hu).
    apply (connected_to_cycle_nodes L2 u). apply elem_of_connected_to. by exists e. }
  assert (Hdisjoint : cycle_edges L1 ## cycle_edges L2).
  { intros e He1 He2.
    assert (∃ u, u ∈ edge_nodes e ∧ u ∈ L1) as (u & Hue & Hu1).
    { destruct L1 as [|x l1]; [by apply not_elem_of_empty in He1|].
      unfold cycle_edges in He1.
      apply elem_of_path_edges in He1 as (i & a & b & Ha & _ & ->).
      exists a. split; [simpl; set_solver|].
      apply list_elem_of_lookup_2 in Ha.
      apply elem_of_app in Ha as [?| ->%list_elem_of_singleton]; [done|by left]. }
    by apply (Hfar u e). }
  assert (Hsize : size E = (length L1 + length L2)%nat).
  { unfold E. rewrite size_union by done.
    by rewrite !size_cycle_edges. }
  assert (Hnodes : nodes (mkShape E c) = list_to_set (L1 ++ L2)).
  { apply set_eq. intros v. rewrite elem_of_nodes, elem_of_list_to_set, elem_of_app.
    simpl. unfold E. setoid_rewrite elem_of_union.
    rewrite <- (elem_of_list_to_set (C:=gset Z) v L1),
            <- (elem_of_list_to_set (C:=gset Z) v L2),
            <- (nodes_cycle_edges L1 c), <- (nodes_cycle_edges L2 c),
            !elem_of_nodes. simpl. naive_solver. }
  unfold to_node_list, walk. rewrite Hnodes.
  assert (py_min (list_to_set (L1 ++ L2)) = Ok m) as ->.
  { apply py_min_spec. split.
    - apply elem_of_list_to_set, elem_of_app. by left.
    - intros y Hy. apply Hmin. by apply elem_of_list_to_set in Hy. }
  cbn [mbind result_bind edges].
  assert (({[m]} : gset Z) = list_to_set ([] ++ [m])) as ->.
  { simpl. by rewrite union_empty_r_L. }
  change [m] with ([] ++ [m]).
  rewrite (loop_on_cycle_stuck E (m :: w :: l)) with (l2 := w :: l); try done.
  - by rewrite Hperm.
  - simpl. lia.
  - intros m0 w0 l0 z0 [= <- <- <-] Hz. congruence.
  - intros u Hu. rewrite Hedges. unfold E. apply connected_to_union_l.
    intros e He. apply Hfar; [|done]. by rewrite <- Hperm.
  - rewrite Hsize, <- Hperm. simpl in *. lia.
  - lia.
Qed.

(** X21: On a shape made of two disjoint rings, each of at least three
    distinct nodes, [to_node_list] raises ValueError: it walks around the
    ring that holds the minimum node and then finds no unvisited
    neighbour. *)
Theorem to_node_list_two_rings L1 L2 (c : option (gmap Z (Coord T))) :
  NoDup (L1 ++ L2) → (3 ≤ length L1)%nat → (3 ≤ length L2)%nat →
  to_node_list
    (mkShape (node_list_to_edges L1 true ∪ node_list_to_edges L2 true) c)
  = Raise ValueError.
Proof.
  intros Hnd Hlen1 Hlen2. rewrite !node_list_to_edges_cycle.
  destruct (list_min_exists (L1 ++ L2)) as (m & Hm & Hmin).
  { destruct L1; [simpl in Hlen1; lia|done]. }
  apply elem_of_app in Hm as [Hm|Hm].
  - by apply (two_rings_stuck L1 L2 c m).
  - rewrite (union_comm_L (cycle_edges L1)).
    apply (two_rings_stuck L2 L1 c m); try done.
    + by rewrite Permutation_app_comm.
    + intros y Hy. apply Hmin. by rewrite Permutation_app_comm.
Qed.
End not_one_ring.

(** ** Open chains *)

Section chains.
Context {T : Type} `{!Number T}.
Implicit Types (L l : list Z) (E : gset Edge).



End chains.

(** ** Rings with coordinates: errors, round trip, polygon *)

Section ring_coordinates.
Context {T : Type} `{!Number T}.
Implicit Types (L l : list Z) (E : gset Edge) (coords : gmap Z (Coord T)).

(** The area computed for the winding fails on a missing coordinate. *)
Lemma to_node_list_KeyError E L coords n :
  simple_ring E L → n ∈ L → coords !! n = None →
  to_node_list (mkShape E (Some coords)) = Raise KeyError.
Proof.
  intros Hring Hn Hnone.
  destruct (walk_simple_ring E L (Some coords) Hring)
    as (m & w & l & z & Hwalk & Hperm & _).
  unfold to_node_list. rewrite Hwalk. cbn [mbind result_bind coords_dict].
  destruct (calculate_polygon_area_defined (m :: w :: l) coords) as [_ Herr].
  rewrite Herr; [done|]. exists n. split; [by rewrite Hperm|done].
Qed.

(** X23: The node list of a ring whose coordinate map misses one of its nodes
    cannot be oriented: [to_node_list] raises KeyError. *)
Theorem to_node_list_missing_coordinate E L coords n :
  simple_ring E L → n ∈ L → coords !! n = None →
  to_node_list (mkShape E (Some coords)) = Raise KeyError.
Proof. apply to_node_list_KeyError. Qed.

(** X24: Going from a ring of at least three distinct nodes to its node list
    and back gives the same edge set, so an equal shape; and the node
    list of that shape is the same list again. *)
Theorem to_node_list_round_trip L (c : option (gmap Z (Coord T))) L' :
  NoDup L → (3 ≤ length L)%nat →
  to_node_list (mkShape (node_list_to_edges L true) c) = Ok L' →
  node_list_to_edges L' true = node_list_to_edges L true ∧
  Shape_eq (mkShape (node_list_to_edges L' true) c)
           (mkShape (node_list_to_edges L true) c) = true ∧
  to_node_list (mkShape (node_list_to_edges L' true) c) = Ok L'.
Proof.
  intros Hnd Hlen Hlist.
  assert (Hedges : node_list_to_edges L' true = node_list_to_edges L true).
  { rewrite !node_list_to_edges_cycle in *.
    assert (Hring : simple_ring (cycle_edges L) L) by (by split_and!).
    destruct (walk_simple_ring (cycle_edges L) L c Hring)
      as (m & w & l & z & Hwalk & _ & _ & _ & _ & _ & Hcyc).
    unfold to_node_list in Hlist. rewrite Hwalk in Hlist.
    cbn [mbind result_bind coords_dict] in Hlist.
    destruct c as [coords|]; [|by injection Hlist as <-].
    destruct (calculate_polygon_area _ _) as [a|]; [|done].
    cbn [mbind result_bind] in Hlist.
    destruct (num_ltb a num_zero); [|by injection Hlist as <-].
    rewrite last_to_front_reverse_cons in Hlist. injection Hlist as <-.
    by rewrite cycle_edges_reversed_front. }
  split_and!; [done|by apply Shape_eq_spec|by rewrite Hedges].
Qed.

Lemma mapM_dict_get coords l :
  (∀ n, n ∈ l → is_Some (coords !! n)) →
  ∃ vs, mapM (M:=result) (λ node, dict_get coords node) l = Ok vs ∧
        length vs = length l ∧
        ∀ i n, l !! i = Some n → vs !! i = coords !! n.
Proof.
  induction l as [|x l IH]; intros Hdef.
  - exists []. by split_and!.
  - destruct (Hdef x) as [p Hp]; [by left|].
    destruct IH as (vs & Hvs & Hlen & Hlookup).
    { intros n Hn. apply Hdef. by right. }
    exists (p :: vs). split_and!.
    + simpl. rewrite (dict_get_Some _ _ _ Hp). cbn [mbind result_bind].
      rewrite Hvs. done.
    + simpl. by rewrite Hlen.
    + intros [|i] n Hi; simpl in *; [congruence|by apply Hlookup].
Qed.

(** X25: The polygon of a ring with coordinates for all its nodes has one
    vertex per edge: the coordinates of the nodes of [to_node_list], in
    that order. *)
Theorem to_polygon_simple_ring E L coords :
  simple_ring E L → (∀ n, n ∈ L → is_Some (coords !! n)) →
  ∃ L' vs, to_node_list (mkShape E (Some coords)) = Ok L' ∧
           to_polygon (mkShape E (Some coords)) = Ok vs ∧
           length vs = Shape_len (mkShape E (Some coords)) ∧
           ∀ i n, L' !! i = Some n → vs !! i = coords !! n.
Proof.
  intros Hring Hdef.
  destruct (to_node_list_coords_ring E L coords Hring Hdef)
    as (L' & Hlist & (Hnd' & Hlen' & Hlinks') & _).
  pose proof (to_node_list_shape _ _ Hlist) as (_ & Hlen & Hin & _).
  destruct (mapM_dict_get coords L') as (vs & Hvs & Hvlen & Hlookup).
  { intros n Hn. apply Hdef.
    apply Hin in Hn. rewrite (nodes_simple_ring E L _ Hring) in Hn.
    by apply elem_of_list_to_set in Hn. }
  exists L', vs. unfold to_polygon. cbn [coords_dict]. rewrite Hlist.
  cbn [mbind result_bind]. split_and!; [done|done|congruence|done].
Qed.

(** X26: [to_polygon] raises ValueError on a shape without coordinates, even
    one whose node list exists, and KeyError on a ring whose coordinate
    map misses one of its nodes. *)
Theorem to_polygon_errors E L :
  simple_ring E L →
  (∃ L', to_node_list (mkShape (T:=T) E None) = Ok L' ∧
         to_polygon (mkShape (T:=T) E None) = Raise ValueError) ∧
  (∀ coords n, n ∈ L → coords !! n = None →
     to_polygon (mkShape E (Some coords)) = Raise KeyError).
Proof.
  intros Hring. split.
  - destruct (to_node_list_abstract_ring (T:=T) E L Hring) as (L' & Hlist & _).
    by exists L'.
  - intros coords n Hn Hnone. unfold to_polygon. cbn [coords_dict].
    by rewrite (to_node_list_KeyError E L coords n).
Qed.
End ring_coordinates.

(** ** The polygon generator of the tests *)

Section cycle_index.
Implicit Types (L l : list Z).

(** The edges of a ring, by index: node [i] is linked to node
    [(i + 1) % len]. *)
Lemma elem_of_cycle_edges L e :
  e ∈ cycle_edges L ↔
  ∃ i a b, L !! i = Some a ∧ L !! ((i + 1) `mod` length L)%nat = Some b ∧
           e = Frozen {[a; b]}.
Proof.
  destruct L as [|x l].
  { simpl. split; [by intros ?%not_elem_of_empty|by intros (?&?&?&?&_)]. }
  unfold cycle_edges. rewrite elem_of_path_edges.
  assert (Hn : (0 < length (x :: l))%nat) by (simpl; lia).
  assert (H0 : (x :: l) !! 0%nat = Some x) by done.
  remember (x :: l) as L eqn:HL. clear HL.
  split.
  - intros (i & a & b & Ha & Hb & ->).
    assert (Hi : (i < length L)%nat).
    { apply lookup_lt_Some in Hb. rewrite length_app in Hb. simpl in Hb. lia. }
    exists i, a, b. rewrite lookup_app_l in Ha by done. split_and!; [done| |done].
    destruct (decide (S i < length L)%nat) as [Hlt|Hge].
    + rewrite lookup_app_l in Hb by done.
      replace (i + 1)%nat with (S i) by lia. by rewrite Nat.mod_small.
    + replace (i + 1)%nat with (length L) by lia. rewrite Nat.Div0.mod_same.
      rewrite lookup_app_r in Hb by lia.
      replace (S i - length L)%nat with 0%nat in Hb by lia.
      simpl in Hb. congruence.
  - intros (i & a & b & Ha & Hb & ->).
    assert (Hi : (i < length L)%nat) by (by eapply lookup_lt_Some).
    exists i, a, b. split_and!; [by apply lookup_app_l_Some| |done].
    destruct (decide (S i < length L)%nat) as [Hlt|Hge].
    + replace (i + 1)%nat with (S i) in Hb by lia.
      rewrite Nat.mod_small in Hb by done. by apply lookup_app_l_Some.
    + replace (i + 1)%nat with (length L) in Hb by lia.
      rewrite Nat.Div0.mod_same in Hb.
      rewrite lookup_app_r by lia.
      replace (S i - length L)%nat with 0%nat by lia.
      simpl. congruence.
Qed.
End cycle_index.

Section generate_polygon_facts.
Variables (sin cos : float → float) (pi : float) (float_of_int : Z → float).

Lemma generate_polygon_loop_spec num_sides angle radius centre edge_offset
    range coordinates edges :
  ∃ coordinates',
    generate_polygon_loop sin cos float_of_int num_sides angle radius centre
      edge_offset range coordinates edges =
    (coordinates',
     edges ++ ((λ i, (i + edge_offset, (i + 1) `mod` num_sides + edge_offset)%Z)
               <$> range)) ∧
    dom coordinates' = dom coordinates ∪ list_to_set range.
Proof.
  revert coordinates edges.
  induction range as [|i range IH]; intros coordinates edges.
  - exists coordinates. simpl. rewrite app_nil_r. split; [done|set_solver].
  - simpl. edestruct IH as (coordinates' & -> & Hdom).
    exists coordinates'. rewrite <- app_assoc. split; [done|].
    rewrite Hdom, dom_insert_L. set_solver.
Qed.

(** The edges and the coordinate keys that [generate_polygon] returns. *)
Lemma generate_polygon_shape num_sides radius centre edge_offset :
  (num_sides = 0%Z →
   generate_polygon sin cos pi float_of_int num_sides radius centre edge_offset
   = None) ∧
  (num_sides ≠ 0%Z →
   ∃ coordinates edges,
     generate_polygon sin cos pi float_of_int num_sides radius centre edge_offset
     = Some (coordinates, edges) ∧
     edges = (λ i, (i + edge_offset, (i + 1) `mod` num_sides + edge_offset)%Z)
             <$> (Z.of_nat <$> seq 0 (Z.to_nat num_sides)) ∧
     dom coordinates = list_to_set (Z.of_nat <$> seq 0 (Z.to_nat num_sides))).
Proof.
  unfold generate_polygon. split.
  - intros ->. done.
  - intros Hne. rewrite decide_False by done.
    edestruct generate_polygon_loop_spec as (coordinates' & -> & Hdom).
    exists coordinates'. eexists. split_and!; [done|done|].
    rewrite Hdom, dom_empty_L. set_solver.
Qed.

(** X27: [generate_polygon] fails on zero sides.  Otherwise its edges join
    node [i + edge_offset] to node [(i + 1) % num_sides + edge_offset],
    while its coordinates are keyed by [i] alone, whatever the offset. *)
Theorem generate_polygon_edges_keys num_sides radius centre edge_offset :
  (num_sides = 0%Z →
   generate_polygon sin cos pi float_of_int num_sides radius centre edge_offset
   = None) ∧
  (num_sides ≠ 0%Z →
   ∃ coordinates edges,
     generate_polygon sin cos pi float_of_int num_sides radius centre edge_offset
     = Some (coordinates, edges) ∧
     edges = (λ i, (i + edge_offset, (i + 1) `mod` num_sides + edge_offset)%Z)
             <$> (Z.of_nat <$> seq 0 (Z.to_nat num_sides)) ∧
     dom coordinates = list_to_set (Z.of_nat <$> seq 0 (Z.to_nat num_sides))).
Proof. apply generate_polygon_shape. Qed.

Lemma node_range_lookup first count i :
  (i < count)%nat → node_range first count !! i = Some (Z.of_nat i + first)%Z.
Proof.
  intros Hi. unfold node_range. rewrite list_lookup_fmap, lookup_seq_lt by done.
  done.
Qed.

Lemma node_range_NoDup first count : NoDup (node_range first count).
Proof.
  unfold node_range. apply NoDup_fmap_2; [|apply NoDup_seq].
  intros i j Hij. lia.
Qed.

Lemma node_range_length first count : length (node_range first count) = count.
Proof. unfold node_range. by rewrite length_fmap, length_seq. Qed.

(** The edge tuples of a polygon of [n >= 3] sides are a simple ring
    through the nodes [edge_offset, ..., edge_offset + n - 1]. *)
Lemma polygon_edges_simple_ring (n : nat) (edge_offset : Z) :
  (3 ≤ n)%nat →
  simple_ring
    (list_to_set
       (tuple_edge <$>
          ((λ i, (i + edge_offset, (i + 1) `mod` Z.of_nat n + edge_offset)%Z)
           <$> (Z.of_nat <$> seq 0 n))))
    (node_range edge_offset n).
Proof.
  intros Hn. set (L := node_range edge_offset n).
  assert (HndL : NoDup L) by apply node_range_NoDup.
  assert (HlenL : length L = n) by apply node_range_length.
  split_and!; [done|lia|]. split.
  - rewrite size_cycle_edges by (done || lia). rewrite HlenL.
    rewrite size_list_to_set.
    + by rewrite !length_fmap, length_seq.
    + rewrite <- !list_fmap_compose. apply NoDup_fmap_2; [|apply NoDup_seq].
      intros i j Hij. unfold tuple_edge in Hij. simpl in Hij.
      injection Hij as Hij _. lia.
  - apply set_eq. intros X. rewrite !elem_of_map. split.
    + intros (e & -> & He). apply elem_of_list_to_set in He.
      rewrite <- !list_fmap_compose in He.
      apply list_elem_of_fmap in He as (i & -> & Hi).
      apply elem_of_seq in Hi. simpl.
      exists (Frozen {[ (Z.of_nat i + edge_offset)%Z;
                        ((Z.of_nat i + 1) `mod` Z.of_nat n + edge_offset)%Z ]}).
      split; [done|]. apply elem_of_cycle_edges.
      exists i, (Z.of_nat i + edge_offset)%Z,
             ((Z.of_nat i + 1) `mod` Z.of_nat n + edge_offset)%Z.
      split_and!; [apply node_range_lookup; lia| |done].
      rewrite HlenL. unfold L. rewrite node_range_lookup.
      * do 2 f_equal. rewrite Nat2Z.inj_mod. f_equal. lia.
      * apply Nat.mod_upper_bound. lia.
    + intros (e & -> & He). apply elem_of_cycle_edges in He as (i & a & b & Ha & Hb & ->).
      assert (Hi : (i < n)%nat) by (apply lookup_lt_Some in Ha; lia).
      unfold L in Ha. rewrite node_range_lookup in Ha by done. injection Ha as <-.
      rewrite HlenL in Hb. unfold L in Hb.
      rewrite node_range_lookup in Hb by (apply Nat.mod_upper_bound; lia).
      injection Hb as <-.
      exists (Tuple (Z.of_nat i + edge_offset)
                    ((Z.of_nat i + 1) `mod` Z.of_nat n + edge_offset)).
      split.
      * simpl. do 3 f_equal. rewrite Nat2Z.inj_mod. f_equal. lia.
      * apply elem_of_list_to_set. rewrite <- !list_fmap_compose.
        apply list_elem_of_fmap. exists i. split; [done|]. apply elem_of_seq. lia.
Qed.
End generate_polygon_facts.

Section generate_polygon_shape.
Variables (sin cos : float → float) (pi : float) (float_of_int : Z → float).

Lemma walk_node_range (E : gset Edge) (first : Z) (n : nat)
    (c : option (gmap Z (Coord float))) :
  (3 ≤ n)%nat → simple_ring E (node_range first n) →
  walk (mkShape E c) = Ok (node_range first n).
Proof.
  intros Hn Hring. pose proof Hring as (Hnd & _ & Hlinks).
  rewrite (walk_same_links E (cycle_edges (node_range first n)) c c) by done.
  pose proof (node_range_length first n) as Hlen.
  pose proof (node_range_lookup first n 0 ltac:(lia)) as H0.
  pose proof (node_range_lookup first n 1 ltac:(lia)) as H1.
  pose proof (node_range_lookup first n (n - 1) ltac:(lia)) as Hlast.
  assert (Hall : ∀ y, y ∈ node_range first n → (first ≤ y)%Z).
  { intros y (i & -> & _)%list_elem_of_fmap. lia. }
  destruct (node_range first n) as [|m [|w l]] eqn:HL;
    [simpl in Hlen; lia..|].
  simpl in H0, H1. injection H0 as ->. injection H1 as ->.
  apply (walk_cycle _ _ l (Z.of_nat (n - 1) + first)%Z).
  - done.
  - simpl in Hlen. lia.
  - intros y Hy. specialize (Hall y Hy). lia.
  - rewrite last_lookup. by replace (Init.Nat.pred _) with (n - 1)%nat
      by (simpl in *; lia).
  - lia.
Qed.

(** X28: The edges of a generated polygon of at least three sides, taken as a
    shape, list as the nodes [edge_offset, edge_offset + 1, ...] in
    order.  With the generated coordinates and a non-zero [edge_offset]
    the node list raises KeyError instead: the coordinates are keyed
    without the offset. *)
Theorem generate_polygon_node_list num_sides radius centre edge_offset
    coordinates edges :
  (3 ≤ num_sides)%Z →
  generate_polygon sin cos pi float_of_int num_sides radius centre edge_offset
    = Some (coordinates, edges) →
  to_node_list (Shape_init (T:=float) (tuple_edge <$> edges) None)
    = Ok (node_range edge_offset (Z.to_nat num_sides)) ∧
  (edge_offset ≠ 0%Z →
   to_node_list (Shape_init (tuple_edge <$> edges) (Some coordinates))
     = Raise KeyError).
Proof.
  intros Hn Hgen.
  destruct (generate_polygon_shape sin cos pi float_of_int
              num_sides radius centre edge_offset) as [_ Hspec].
  destruct Hspec as (coordinates' & edges' & Hgen' & Hedges & Hdom); [lia|].
  rewrite Hgen in Hgen'. injection Hgen' as <- <-.
  set (n := Z.to_nat num_sides) in *.
  assert (Hnn : (3 ≤ n)%nat) by (unfold n; lia).
  assert (Hring : simple_ring (list_to_set (tuple_edge <$> edges))
                              (node_range edge_offset n)).
  { rewrite Hedges. replace num_sides with (Z.of_nat n) by (unfold n; lia).
    by apply polygon_edges_simple_ring. }
  split.
  - unfold to_node_list, Shape_init. by rewrite (walk_node_range _ edge_offset n).
  - intros Hoff. unfold Shape_init.
    assert (Hmissing : ∀ i, (i < 0 ∨ Z.of_nat n ≤ i)%Z → coordinates !! i = None).
    { intros i Hi. apply not_elem_of_dom. rewrite Hdom, elem_of_list_to_set.
      intros (j & -> & Hj%elem_of_seq)%list_elem_of_fmap. lia. }
    destruct (decide (0 < edge_offset)%Z) as [Hpos|Hneg].
    + apply (to_node_list_KeyError _ (node_range edge_offset n) _
               (Z.of_nat (n - 1) + edge_offset)%Z); [done| |apply Hmissing; lia].
      eapply list_elem_of_lookup_2. apply node_range_lookup. lia.
    + apply (to_node_list_KeyError _ (node_range edge_offset n) _
               (Z.of_nat 0 + edge_offset)%Z); [done| |apply Hmissing; lia].
      eapply list_elem_of_lookup_2. apply node_range_lookup. lia.
Qed.
End generate_polygon_shape.

(** ** Instances of the further properties on the test data *)

(** Membership in a literal list, case by case. *)
Ltac for_each_node tac :=
  let n := fresh "n" in let Hn := fresh "Hn" in
  intros n Hn;
  repeat (apply elem_of_cons in Hn as [->|Hn]; [tac|]);
  by apply elem_of_nil in Hn.

#[global] Instance result_eq_dec {A} `{EqDecision A} : EqDecision (result A).
Proof. solve_decision. Defined.

Lemma calculate_polygon_area_agree_witness :
  calculate_polygon_area [0; 1; 2; 3]%Z two_squares_coords =
  calculate_polygon_area [0; 1; 2; 3]%Z (delete 5%Z two_squares_coords).
Proof.
  apply calculate_polygon_area_agree.
  for_each_node ltac:(vm_compute; reflexivity).
Defined.

Lemma calculate_polygon_area_translate_witness :
  calculate_polygon_area [0; 1; 2; 3]%Z
    ((λ p : Coord Qc, (p.1 + Q2Qc 3, p.2 + Q2Qc (-2))%Qc) <$> square_coords) =
  calculate_polygon_area [0; 1; 2; 3]%Z square_coords.
Proof. apply calculate_polygon_area_translate. solve_defined. Defined.

Lemma calculate_polygon_area_scale_witness :
  ∃ a, calculate_polygon_area [0; 1; 2; 3]%Z square_coords = Ok a ∧
       calculate_polygon_area [0; 1; 2; 3]%Z
         ((λ p : Coord Qc, (Q2Qc 3 * p.1, Q2Qc 3 * p.2)%Qc) <$> square_coords)
       = Ok (Q2Qc 3 * Q2Qc 3 * a)%Qc.
Proof. apply calculate_polygon_area_scale. solve_defined. Defined.

Lemma calculate_polygon_area_degenerate_witness :
  calculate_polygon_area [0; 2]%Z square_coords = Ok (Q2Qc 0).
Proof.
  apply calculate_polygon_area_degenerate; [simpl; lia|solve_defined].
Defined.

Lemma node_list_to_edges_size_witness :
  size (node_list_to_edges [0; 1; 2; 3]%Z false) = 3%nat ∧
  ((3 ≤ 4)%nat → size (node_list_to_edges [0; 1; 2; 3]%Z true) = 4%nat).
Proof. apply (node_list_to_edges_size [0; 1; 2; 3]%Z). by_computation. Defined.

Lemma node_list_to_edges_closing_edge_witness :
  node_list_to_edges [0; 1; 2; 3]%Z true =
  node_list_to_edges [0; 1; 2; 3]%Z false ∪ {[ Frozen {[3; 0]}%Z ]}.
Proof. by apply node_list_to_edges_closing_edge. Defined.

Lemma merge_len_witness :
  (Shape_len hexagon + 2 * size (edges left_square ∩ edges right_square)
   = Shape_len left_square + Shape_len right_square)%nat.
Proof. apply merge_len. merge_evaluated. Defined.

Lemma merge_commutes_witness :
  Shape_eq hexagon hexagon = true ∧
  coords_dict hexagon = coords_dict left_square ∧
  coords_dict hexagon = coords_dict right_square.
Proof.
  apply (merge_commutes left_square right_square hexagon hexagon);
    merge_evaluated.
Defined.

Lemma merge_assoc_witness :
  Shape_eq right_square right_square = true ∧
  coords_dict right_square = coords_dict right_square.
Proof.
  apply (merge_assoc left_square right_square left_square hexagon hexagon
           right_square right_square); merge_evaluated.
Defined.

Lemma merge_self_witness :
  let S : Shape float := mkShape ∅ (Some two_squares_coords) in
  Shape_len S = 0%nat ∧ nodes S = ∅ ∧ to_node_list S = Raise ValueError.
Proof.
  intros S. subst S. apply (merge_self left_square). merge_evaluated.
Defined.

Lemma merge_nodes_witness :
  nodes hexagon ⊆ nodes left_square ∪ nodes right_square.
Proof.
  apply (merge_nodes left_square right_square hexagon). merge_evaluated.
Defined.


Lemma to_node_list_invariants_witness :
  NoDup [0; 3; 2; 1]%Z ∧ length [0; 3; 2; 1]%Z = Shape_len left_square ∧
  (∀ x, x ∈ [0; 3; 2; 1]%Z → x ∈ nodes left_square) ∧
  ∃ m, head [0; 3; 2; 1]%Z = Some m ∧ m ∈ nodes left_square ∧
       ∀ y, y ∈ nodes left_square → (m ≤ y)%Z.
Proof. apply to_node_list_invariants. by_computation. Defined.

Lemma to_node_list_greedy_witness :
  greedy_walk (edges abstract_left) [0; 1; 2; 3]%Z.
Proof.
  apply (to_node_list_greedy abstract_left); [done|]. by_computation.
Defined.

Lemma to_node_list_two_rings_witness :
  to_node_list
    (mkShape (T:=float)
       (node_list_to_edges [0; 1; 2]%Z true ∪ node_list_to_edges [3; 4; 5]%Z true)
       None)
  = Raise ValueError.
Proof.
  apply to_node_list_two_rings; [by_computation|simpl; lia..].
Defined.


Lemma to_node_list_missing_coordinate_witness :
  to_node_list (mkShape (node_list_to_edges [0; 1; 7]%Z true) (Some two_squares_coords))
  = Raise KeyError.
Proof.
  apply (to_node_list_missing_coordinate _ [0; 1; 7]%Z _ 7%Z);
    [by_computation|by_computation|vm_compute; reflexivity].
Defined.

Lemma to_node_list_round_trip_witness :
  node_list_to_edges [1; 7; 5; 3; 9]%Z true = node_list_to_edges [5; 3; 9; 1; 7]%Z true ∧
  Shape_eq (mkShape (T:=float) (node_list_to_edges [1; 7; 5; 3; 9]%Z true) None)
           (mkShape (node_list_to_edges [5; 3; 9; 1; 7]%Z true) None) = true ∧
  to_node_list (mkShape (T:=float) (node_list_to_edges [1; 7; 5; 3; 9]%Z true) None)
  = Ok [1; 7; 5; 3; 9]%Z.
Proof.
  apply to_node_list_round_trip;
    [by_computation|simpl; lia|by_computation].
Defined.

Lemma to_polygon_simple_ring_witness :
  ∃ L' vs, to_node_list left_square = Ok L' ∧
           to_polygon left_square = Ok vs ∧
           length vs = Shape_len left_square ∧
           ∀ i n, L' !! i = Some n → vs !! i = two_squares_coords !! n.
Proof.
  apply (to_polygon_simple_ring _ [0; 1; 2; 3]%Z); [by_computation|solve_defined].
Defined.

Lemma to_polygon_errors_witness :
  (∃ L', to_node_list abstract_left = Ok L' ∧
         to_polygon abstract_left = Raise ValueError) ∧
  (∀ (coords : gmap Z (Coord float)) n, n ∈ [0; 1; 2; 3]%Z → coords !! n = None →
     to_polygon (mkShape (edges abstract_left) (Some coords)) = Raise KeyError).
Proof. apply (to_polygon_errors _ [0; 1; 2; 3]%Z). by_computation. Defined.

Lemma generate_polygon_node_list_witness :
  ∃ coordinates edges,
    generate_polygon (λ x, x) (λ x, x) 3%float (λ _, 1%float) 6 1 (0, 0)%float 2
      = Some (coordinates, edges) ∧
    to_node_list (Shape_init (T:=float) (tuple_edge <$> edges) None)
      = Ok (node_range 2 6) ∧
    (2%Z ≠ 0%Z →
     to_node_list (Shape_init (tuple_edge <$> edges) (Some coordinates))
       = Raise KeyError).
Proof.
  destruct (proj2 (generate_polygon_shape (λ x, x) (λ x, x) 3%float
                     (λ _, 1%float) 6 1 (0, 0)%float 2) ltac:(lia))
    as (coordinates & edges & Hgen & _).
  exists coordinates, edges. split; [done|].
  apply (generate_polygon_node_list _ _ _ _ 6 _ _ 2 _ _ ltac:(lia) Hgen).
Defined.
